(** * Beam analysis: a shallow embedding of [js/beam-analysis.js]

    The program computes sampled deflection, bending-moment and shear-force
    curves of a beam under a uniformly distributed load, for the conditions
    ['simply-supported'] and ['two-span-unequal'].
    The plotter [AnalysisPlotter] is embedded as the calls it makes on the
    charting library.

    JavaScript numbers are IEEE-754 doubles.  The embedding is written once,
    over an interface [JSNumber] of the arithmetic the program uses, and is
    instantiated twice:

    - [DoubleNumber]: Rocq's primitive binary64 floats, which compute what
      the JavaScript engine computes.  What the generators return is stated
      for every instance of [JSNumber], hence for the doubles, or is
      evaluated on the doubles; a statement about the rationals says so;
    - [QNumber]: exact rational arithmetic, the reading under which the
      closed-form beam formulas are stated.  It serves the algebra of the
      formulas.  A loop run over the rationals is not a run of the program:
      sums of steps are exact there, a division by zero gives 0 instead of
      NaN or an infinity, and a value is printed from its exact decimal
      expansion; the lemmas named [_exact] record what the loops do under
      this reading.

    [Math.pow(x, 2)] and [Math.pow(x, 3)] are written as repeated products;
    on the doubles evaluated below (integer spans) the cubes are exact. *)

From Stdlib Require Import ZArith QArith Qround Qabs Lqa Lia Bool List String Ascii.
From Stdlib Require Import DecimalString.
From Stdlib Require Import Floats.PrimFloat Floats.FloatOps Floats.SpecFloat.
From Stdlib Require Import Floats.FloatAxioms.
Import ListNotations.

Local Open Scope string_scope.

(** ** Number interface *)

(** The result of [x.toFixed(2)], as the string it denotes. *)
Inductive Fixed : Type :=
| Decimal (negative : bool) (cents : Z)
    (* "[-]i.ff": sign, then the digits of cents/100 with two decimals *)
| NumberString (x : spec_float).
    (* Number::toString(x): "NaN", "Infinity", "-Infinity", and the
       exponent notation of a magnitude of 1e21 or more *)

Class JSNumber (num : Type) : Type := {
  ofZ : Z -> num;                 (* an integer literal *)
  add : num -> num -> num;
  sub : num -> num -> num;
  mul : num -> num -> num;
  div : num -> num -> num;
  neg : num -> num;                (* unary minus *)
  abs : num -> num;                (* Math.abs *)
  eqb : num -> num -> bool;        (* === and == on two numbers *)
  ltb : num -> num -> bool;
  leb : num -> num -> bool;
  toFixed2 : num -> Fixed;         (* x.toFixed(2) *)
  ofFixed : Fixed -> num           (* ToNumber of such a string *)
}.

Declare Scope js_scope.
Delimit Scope js_scope with js.
Infix "+" := add : js_scope.
Infix "-" := sub : js_scope.
Infix "*" := mul : js_scope.
Infix "/" := div : js_scope.
Notation "- x" := (neg x) : js_scope.
Infix "===" := eqb (at level 70, no associativity) : js_scope.
Infix "<?" := ltb : js_scope.
Infix "<=?" := leb : js_scope.

(** *** Rendering of a fixed-notation string *)

Definition digits (n : Z) : string :=
  NilZero.string_of_uint (N.to_uint (Z.to_N n)).

Definition two_digits (n : Z) : string :=
  if (n <? 10)%Z then "0" ++ digits n else digits n.

(** Number::toString of a double [m * 2^e >= 1e21]: the shortest decimal
    that reads back as the same double (the nearest one among the shortest),
    in exponent notation. *)
Fixpoint shortest_decimal (fuel : nat) (k : Z) (m : positive) (e : Z) : Z :=
  let X := (Z.pos m * 2 ^ e)%Z in
  match fuel with
  | O => X
  | S fuel' =>
      let D := (Z.of_nat (String.length (digits X)))%Z in
      let scale := (10 ^ (D - k))%Z in
      let lo := (X / scale * scale)%Z in
      let hi := (lo + scale)%Z in
      let gap_down := if (Z.pos m =? 2 ^ 52)%Z then (2 ^ (e - 1))%Z else (2 ^ e)%Z in
      let inside v :=
        if Z.even (Z.pos m)
        then ((2 * X - gap_down <=? 2 * v) && (2 * v <=? 2 * X + 2 ^ e))%Z%bool
        else ((2 * X - gap_down <? 2 * v) && (2 * v <? 2 * X + 2 ^ e))%Z%bool in
      match inside lo, inside hi with
      | true, true => if (X - lo <=? hi - X)%Z then lo else hi
      | true, false => lo
      | false, true => hi
      | false, false => shortest_decimal fuel' (k + 1) m e
      end
  end.

Fixpoint strip_zeros (fuel : nat) (v : Z) : Z :=
  match fuel with
  | O => v
  | S fuel' => if (v mod 10 =? 0)%Z then strip_zeros fuel' (v / 10) else v
  end.

Definition exponent_notation (m : positive) (e : Z) : string :=
  let v := shortest_decimal 400 1 m e in
  let n := String.length (digits v) in
  match digits (strip_zeros n v) with
  | String d EmptyString => String d EmptyString ++ "e+" ++ digits (Z.of_nat n - 1)
  | String d ds => String d EmptyString ++ "." ++ ds ++ "e+" ++ digits (Z.of_nat n - 1)
  | EmptyString => EmptyString
  end.

Definition show (f : Fixed) : string :=
  match f with
  | Decimal s c =>
      (if s then "-" else "") ++ digits (c / 100) ++ "." ++ two_digits (c mod 100)
  | NumberString S754_nan => "NaN"
  | NumberString (S754_infinity false) => "Infinity"
  | NumberString (S754_infinity true) => "-Infinity"
  | NumberString (S754_zero _) => "0"
  | NumberString (S754_finite s m e) =>
      (if s then "-" else "") ++ exponent_notation m e
  end.

(** *** Exact rationals *)

(** [toFixed(2)]: "let n be an integer for which n / 100 - x is as close to
    zero as possible; if there are two such n, pick the larger n", applied
    to the magnitude, the sign being printed apart. *)
Definition Q_cents (x : Q) : Z := Qfloor (Qabs x * 100 + (1 # 2))%Q.

Definition Q_toFixed2 (x : Q) : Fixed :=
  Decimal (negb (Qle_bool 0%Q x)) (Q_cents x).

Definition Q_ofFixed (f : Fixed) : Q :=
  match f with
  | Decimal s c => if s then (- (c # 100))%Q else (c # 100)%Q
  | NumberString _ => 0%Q
  end.

#[export] Instance QNumber : JSNumber Q := {
  ofZ := inject_Z;
  add := Qplus;
  sub := Qminus;
  mul := Qmult;
  div := Qdiv;
  neg := Qopp;
  abs := Qabs;
  eqb := Qeq_bool;
  ltb := fun x y => negb (Qle_bool y x);
  leb := Qle_bool;
  toFixed2 := Q_toFixed2;
  ofFixed := Q_ofFixed
}.

(** *** Doubles *)

(** The double nearest to [p / q] (ties to even), for [p >= 0] and [q > 0]. *)
Definition round_ratio (sign : bool) (p q : Z) : spec_float :=
  match p with
  | Z0 => S754_zero sign
  | _ =>
      let k := Z.max 0 (64 + Z.log2 q - Z.log2 p) in
      let n := (p * 2 ^ k)%Z in
      let m := (n / q)%Z in
      let r := (n mod q)%Z in
      let loc := if (r =? 0)%Z then loc_Exact else loc_Inexact (2 * r ?= q)%Z in
      binary_round_aux prec emax sign m (- k) loc
  end.

Definition double_toFixed2 (x : float) : Fixed :=
  match Prim2SF x with
  | S754_finite s m e =>
      (* x = m * 2^e exactly; n = floor (100 * |x| + 1/2) *)
      let n := if (0 <=? e)%Z then (100 * Z.pos m * 2 ^ e)%Z
               else ((200 * Z.pos m + 2 ^ (- e)) / 2 ^ (1 - e))%Z in
      if (10 ^ 23 <=? n)%Z          (* |x| >= 1e21 *)
      then NumberString (S754_finite s m e)
      else Decimal s n
  | S754_zero _ => Decimal false 0
  | sf => NumberString sf
  end.

Definition double_ofFixed (f : Fixed) : float :=
  match f with
  | Decimal s c => SF2Prim (round_ratio s c 100)
  | NumberString sf => SF2Prim sf
  end.

#[export] Instance DoubleNumber : JSNumber float := {
  ofZ := fun z => SF2Prim (binary_normalize prec emax z 0 false);
  add := PrimFloat.add;
  sub := PrimFloat.sub;
  mul := PrimFloat.mul;
  div := PrimFloat.div;
  neg := PrimFloat.opp;
  abs := PrimFloat.abs;
  eqb := PrimFloat.eqb;
  ltb := PrimFloat.ltb;
  leb := PrimFloat.leb;
  toFixed2 := double_toFixed2;
  ofFixed := double_ofFixed
}.

(** ** Data model *)

Section Analysis.

Context {num : Type} `{JSNumber num}.

Local Open Scope js_scope.

(** [Math.pow(x, 2)] and [Math.pow(x, 3)]. *)
Definition pow2 (x : num) : num := x * x.
Definition pow3 (x : num) : num := x * x * x.

(** [class Material]: the property the analyzers read is [properties.EI]. *)
Record Properties : Type := { EI : num }.

Record Material : Type := {
  name : string;
  properties : Properties
}.

(** [class Beam].  The deflection generators also read [beam.j2], a property
    the constructor does not set: it is the value the caller attached. *)
Record Beam : Type := {
  primarySpan : num;
  secondarySpan : num;
  material : Material;
  j2 : num
}.

(** The object every generator returns. *)
Record Curve : Type := {
  analys : string;
  xdata : list string;
  ydata : list string
}.

(** A loop of a generator keeps the samples it has emitted, newest first
    (each iteration does [xarray.unshift(x.toFixed(2))] and
    [yarray.unshift(y.toFixed(2))], and the arrays are reversed on return).
    A sample is kept as the pair of numbers that are printed. *)
Definition Samples : Type := list (num * num).

Definition xs_of (acc : Samples) : list string :=
  rev (map (fun s => show (toFixed2 (fst s))) acc).

Definition ys_of (acc : Samples) : list string :=
  rev (map (fun s => show (toFixed2 (snd s))) acc).

Definition curve_of (kind : string) (acc : Samples) : Curve :=
  {| analys := kind; xdata := xs_of acc; ydata := ys_of acc |}.

(** The positions and values in the order of the returned arrays. *)
Definition emitted (acc : Samples) : Samples := rev acc.

(** ** Simply supported beam *)

(** [for (let x = 0; x <= beam.primarySpan; x += beam.primarySpan/100)]
    with body [v = value x]; [None] when the fuel runs out. *)
Fixpoint ss_loop (fuel : nat) (value : num -> num) (span x : num)
    (acc : Samples) : option Samples :=
  match fuel with
  | O => None
  | S fuel' =>
      if x <=? span
      then ss_loop fuel' value span (x + span / ofZ 100) ((x, value x) :: acc)
      else Some acc
  end.

Definition ss_deflection_value (w l Ei j x : num) : num :=
  (- ((w * x) / (ofZ 24 * Ei / pow3 (ofZ 1000))))
  * (pow3 l - ofZ 2 * l * pow2 x + pow3 x) * j * ofZ 1000.

Definition ss_bending_value (w span x : num) : num :=
  (w * x / ofZ 2) * (span - x) * (- ofZ 1).

Definition ss_shear_value (w span x : num) : num :=
  w * (span / ofZ 2 - x).

Definition ss_getDeflectionEquation (fuel : nat) (beam : Beam) (load : num)
    : option Curve :=
  let j := j2 beam in
  let w := load in
  let l := primarySpan beam in
  let Ei := EI (properties (material beam)) in
  option_map (curve_of "deflection")
    (ss_loop fuel (ss_deflection_value w l Ei j) (primarySpan beam) (ofZ 0) []).

Definition ss_getBendingMomentEquation (fuel : nat) (beam : Beam) (load : num)
    : option Curve :=
  let w := load in
  option_map (curve_of "bendingmoment")
    (ss_loop fuel (ss_bending_value w (primarySpan beam)) (primarySpan beam) (ofZ 0) []).

Definition ss_getShearForceEquation (fuel : nat) (beam : Beam) (load : num)
    : option Curve :=
  let w := load in
  option_map (curve_of "shearforce")
    (ss_loop fuel (ss_shear_value w (primarySpan beam)) (primarySpan beam) (ofZ 0) []).

(** ** Beam with two unequal spans *)

(** The reactions, computed alike by the three generators:
    [m1 = -((w*Math.pow(l2, 3))+(w*Math.pow(l1, 3)))/(8*(l1+l2))],
    [r1 = (m1/l1)+((w*l1)/2)], [r3 = (m1/l2)+((w*l2)/2)],
    [r2 = (w*l1)+(w*l2)-r1-r3]. *)
Definition support_moment (w l1 l2 : num) : num :=
  (- ((w * pow3 l2) + (w * pow3 l1))) / (ofZ 8 * (l1 + l2)).

Definition reaction1 (w l1 l2 : num) : num :=
  (support_moment w l1 l2 / l1) + ((w * l1) / ofZ 2).

Definition reaction3 (w l1 l2 : num) : num :=
  (support_moment w l1 l2 / l2) + ((w * l2) / ofZ 2).

Definition reaction2 (w l1 l2 : num) : num :=
  (w * l1) + (w * l2) - reaction1 w l1 l2 - reaction3 w l1 l2.

(** The variables a generator shares with its [calculateValue]: the running
    position [m] and the look-back value ([lk]; [mn] in the shear
    generator). *)
Record Vars : Type := { var_m : num; var_lk : num }.

Definition set_m (v : num) (s : Vars) : Vars := {| var_m := v; var_lk := var_lk s |}.
Definition set_lk (v : num) (s : Vars) : Vars := {| var_m := var_m s; var_lk := v |}.

(** [calculateValue(x, l, l1, r1, w, mn, r3)] of the deflection and
    bending-moment generators: the value returned and the variables after
    the call.  [m] and [lk] are the generator's variables. *)
Definition calculateValue (x l l1 r1 w mn r3 : num) (s : Vars) : num * Vars :=
  if x === ofZ 0 then
    let s := set_m (x + l / ofZ 100) s in
    let s := set_lk ((x + l / ofZ 100) - (var_m s + l / ofZ 100)) s in
    (x + l / ofZ 100, s)
  else if (abs (x - l1) <=? l / ofZ 100) && (x - l1 <? ofZ 0) then
    let s := set_lk x s in
    (l1, s)
  else if (x <? l1) && negb (x === r1 / w) && negb (mn === r1 / w)
          && (abs (x - r1 / w) <=? l / ofZ 100) then
    let s := set_lk x s in
    (r1 / w, s)
  else if abs (x - l) <? l / ofZ 100 then
    (l, s)
  else if (l1 <? x) && negb (x === l - r3 / w) && negb (mn === l - r3 / w)
          && (abs (x - (l - r3 / w)) <? l / ofZ 100) then
    let s := set_lk x s in
    (l - r3 / w, s)
  else if (x === r1 / w) || (x === l - r3 / w) then
    let s := set_lk x s in
    (mn + l / ofZ 100, s)
  else
    let s := set_lk ((x + l / ofZ 100) - (var_m s + l / ofZ 100)) s in
    let s := set_m (x + l / ofZ 100) s in
    (x + l / ofZ 100, s).

(** The update of the [for] statement, [m = calculateValue(m, l, l1, r1, w, lk, r3)]. *)
Definition advance (l l1 r1 w r3 : num) (s : Vars) : Vars :=
  let '(ret, s') := calculateValue (var_m s) l l1 r1 w (var_lk s) r3 s in
  set_m ret s'.

Definition calculatePoint1 (x Ei r1 w l1 j : num) : num :=
  ((x / (ofZ 24 * Ei / pow3 (ofZ 1000)))
   * ((ofZ 4 * r1 * pow2 x) - (w * pow3 x) + (w * pow3 l1) - (ofZ 4 * r1 * pow2 l1)))
  * ofZ 1000 * j.

Definition calculatePoint2 (x r1 r2 l1 w Ei j : num) : num :=
  let term1 := (r1 * x / ofZ 6) * (pow2 x - pow2 l1) in
  let term2 := (r2 * x / ofZ 6) * (pow2 x - ofZ 3 * l1 * x + ofZ 3 * pow2 l1) in
  let term3 := (r2 * pow3 l1) / ofZ 6 in
  let term4 := (w * x / ofZ 24) * (pow3 x - pow3 l1) in
  let denominator := Ei / pow3 (ofZ 1000) in
  ((term1 + term2 - term3 - term4) / denominator) * ofZ 1000 * j.

(** The literal [0.5]. *)
Definition half : num := ofZ 1 / ofZ 2.

(** [calculateRoundedValue(x, l, l1, r1, w, r2)]; [-(e).toFixed(2)] negates
    the number read back from the string. *)
Definition calculateRoundedValue (x l l1 r1 w r2 : num) : num :=
  if (x === ofZ 0) || (x === l) then ofZ 0
  else if x <? l1 then
    - ofFixed (toFixed2 (r1 * x - half * w * pow2 x))
  else if l1 <? x then
    - ofFixed (toFixed2 ((r1 * x + r2 * (x - l1)) - half * w * pow2 x))
  else
    - ofFixed (toFixed2 (r1 * l1 - half * w * pow2 l1)).

(** The deflection loop,
    [for(m = 0; m <= l; m = calculateValue(m, l, l1, r1, w, lk, r3), i++)],
    with [i] the number of samples emitted so far. *)
Fixpoint deflection_loop (fuel : nat) (Ei j l l1 r1 r2 r3 w : num) (i : nat)
    (s : Vars) (acc : Samples) : option Samples :=
  match fuel with
  | O => None
  | S fuel' =>
      if var_m s <=? l then
        let y := if (i <=? 11)%nat
                 then calculatePoint1 (var_m s) Ei r1 w l1 j
                 else calculatePoint2 (var_m s) r1 r2 l1 w Ei j in
        let acc := (var_m s, y) :: acc in
        if var_m s === l then Some acc
        else deflection_loop fuel' Ei j l l1 r1 r2 r3 w (S i)
               (advance l l1 r1 w r3 s) acc
      else Some acc
  end.

(** The bending-moment loop. *)
Fixpoint bending_loop (fuel : nat) (l l1 r1 r2 r3 w : num)
    (s : Vars) (acc : Samples) : option Samples :=
  match fuel with
  | O => None
  | S fuel' =>
      if var_m s <=? l then
        let y := calculateRoundedValue (var_m s) l l1 r1 w r2 in
        let acc := (var_m s, y) :: acc in
        if var_m s === l then Some acc
        else bending_loop fuel' l l1 r1 r2 r3 w (advance l l1 r1 w r3 s) acc
      else Some acc
  end.

(** [calculateValue(x, m, l1, l)] of the shear generator.  Its parameter [m]
    hides the generator's [m]; [mn] is the generator's variable, kept in
    [var_lk].  The value returned and the variables after the call. *)
Definition shear_calculateValue (x m l1 l : num) (s : Vars) : num * Vars :=
  if x === ofZ 0 then
    let m := x + l / ofZ 100 in
    let s := set_lk ((x + l / ofZ 100) - (m + l / ofZ 100)) s in
    (x + l / ofZ 100, s)
  else if (abs (x - l1) <=? l / ofZ 100) && (x - l1 <? ofZ 0) then
    let s := set_lk x s in
    (l1, s)
  else if (x - l1 === ofZ 0) && (abs (m - l1) <=? l / ofZ 100) && negb (m === x) then
    let s := set_lk x s in
    (l1, s)
  else if abs (x - l) <? l / ofZ 100 then
    (l, s)
  else
    let s := set_lk ((x + l / ofZ 100) - (m + l / ofZ 100)) s in
    (x + l / ofZ 100, s).

(** [calculate(x, m, mn, r1, r2, w, l, l1)]. *)
Definition calculate (x m mn r1 r2 w l l1 : num) : num :=
  if x === ofZ 0 then r1
  else if x === l then (r1 + r2) - (w * l)
  else if (x === l1) && (m - l1 <? ofZ 0) then r1 - (w * l1)
  else if (x === l1) && (ofZ 0 <? mn - l1) then (r1 + r2) - (w * l1)
  else if x <? l1 then r1 - (w * x)
  else (r1 + r2) - (w * x).

(** The update [m = calculateValue(m, mn, l1, l)]. *)
Definition shear_advance (l l1 : num) (s : Vars) : Vars :=
  let '(ret, s') := shear_calculateValue (var_m s) (var_lk s) l1 l s in
  set_m ret s'.

(** The shear loop; the body calls [calculate(m, mn, m, r1, r2, w, l, l1)]. *)
Fixpoint shear_loop (fuel : nat) (l l1 r1 r2 w : num)
    (s : Vars) (acc : Samples) : option Samples :=
  match fuel with
  | O => None
  | S fuel' =>
      if var_m s <=? l then
        let y := calculate (var_m s) (var_lk s) (var_m s) r1 r2 w l l1 in
        let acc := (var_m s, y) :: acc in
        if var_m s === l then Some acc
        else shear_loop fuel' l l1 r1 r2 w (shear_advance l l1 s) acc
      else Some acc
  end.

Definition initial_vars : Vars := {| var_m := ofZ 0; var_lk := ofZ 0 |}.

Definition ts_deflection_samples (fuel : nat) (beam : Beam) (load : num)
    : option Samples :=
  let j := j2 beam in
  let w := load in
  let l1 := primarySpan beam in
  let l2 := secondarySpan beam in
  let Ei := EI (properties (material beam)) in
  let l := l1 + l2 in
  let r1 := reaction1 w l1 l2 in
  let r3 := reaction3 w l1 l2 in
  let r2 := reaction2 w l1 l2 in
  deflection_loop fuel Ei j l l1 r1 r2 r3 w 0 initial_vars [].

Definition ts_bending_samples (fuel : nat) (beam : Beam) (load : num)
    : option Samples :=
  let w := load in
  let l1 := primarySpan beam in
  let l2 := secondarySpan beam in
  let l := l1 + l2 in
  let r1 := reaction1 w l1 l2 in
  let r3 := reaction3 w l1 l2 in
  let r2 := reaction2 w l1 l2 in
  bending_loop fuel l l1 r1 r2 r3 w initial_vars [].

Definition ts_shear_samples (fuel : nat) (beam : Beam) (load : num)
    : option Samples :=
  let w := load in
  let l1 := primarySpan beam in
  let l2 := secondarySpan beam in
  let l := l1 + l2 in
  let r1 := reaction1 w l1 l2 in
  let r2 := reaction2 w l1 l2 in
  shear_loop fuel l l1 r1 r2 w initial_vars [].

Definition ts_getDeflectionEquation (fuel : nat) (beam : Beam) (load : num)
    : option Curve :=
  option_map (curve_of "deflection") (ts_deflection_samples fuel beam load).

Definition ts_getBendingMomentEquation (fuel : nat) (beam : Beam) (load : num)
    : option Curve :=
  option_map (curve_of "bendingmoment") (ts_bending_samples fuel beam load).

Definition ts_getShearForceEquation (fuel : nat) (beam : Beam) (load : num)
    : option Curve :=
  option_map (curve_of "shearforce") (ts_shear_samples fuel beam load).

End Analysis.

Arguments Beam num : clear implicits.
Arguments Material num : clear implicits.
Arguments Properties num : clear implicits.
Arguments Vars num : clear implicits.
Arguments Samples num : clear implicits.

Arguments Curve : clear implicits.

(** ** The facade [BeamAnalysis] *)

(** The analyzers registered by the constructor under ['simply-supported']
    and ['two-span-unequal']. *)
Inductive Analyzer : Type := simplySupported | twoSpanUnequal.

(** What [this.analyzer[condition]] evaluates to.  [this.analyzer] is an
    object literal, so the lookup also finds the properties it inherits from
    [Object.prototype]; these are functions (and, for [__proto__], an
    object): truthy values without the generators' methods. *)
Inductive Lookup : Type :=
| Registered (a : Analyzer)
| Inherited (key : string)
| Undefined.

Definition object_prototype_keys : list string :=
  [ "constructor"; "hasOwnProperty"; "isPrototypeOf"; "propertyIsEnumerable";
    "toLocaleString"; "toString"; "valueOf"; "__proto__";
    "__defineGetter__"; "__defineSetter__"; "__lookupGetter__"; "__lookupSetter__" ].

Definition analyzer_lookup (condition : string) : Lookup :=
  if String.eqb condition "simply-supported" then Registered simplySupported
  else if String.eqb condition "two-span-unequal" then Registered twoSpanUnequal
  else if existsb (String.eqb condition) object_prototype_keys then Inherited condition
  else Undefined.

Inductive JSError : Type :=
| Error (message : string)        (* [throw new Error(message)] *)
| TypeError (message : string).   (* raised by the engine *)

(** The outcome of a call: a value, an exception, or a loop that is still
    running when the fuel is spent. *)
Inductive Completion (A : Type) : Type :=
| Returned (a : A)
| Thrown (e : JSError)
| OutOfFuel.

Arguments Returned {A} a.
Arguments Thrown {A} e.
Arguments OutOfFuel {A}.

Section Facade.

Context {num : Type} `{JSNumber num}.

Record AnalysisResult : Type := {
  beam : Beam num;
  load : num;
  equation : Curve
}.

Definition wrap (b : Beam num) (w : num) (c : option Curve) : Completion AnalysisResult :=
  match c with
  | Some c => Returned {| beam := b; load := w; equation := c |}
  | None => OutOfFuel
  end.

Definition getDeflectionEquation (a : Analyzer) (fuel : nat) :=
  match a with
  | simplySupported => ss_getDeflectionEquation fuel
  | twoSpanUnequal => ts_getDeflectionEquation fuel
  end.

Definition getBendingMomentEquation (a : Analyzer) (fuel : nat) :=
  match a with
  | simplySupported => ss_getBendingMomentEquation fuel
  | twoSpanUnequal => ts_getBendingMomentEquation fuel
  end.

Definition getShearForceEquation (a : Analyzer) (fuel : nat) :=
  match a with
  | simplySupported => ss_getShearForceEquation fuel
  | twoSpanUnequal => ts_getShearForceEquation fuel
  end.

Definition getDeflection (fuel : nat) (b : Beam num) (w : num) (condition : string)
    : Completion AnalysisResult :=
  match analyzer_lookup condition with
  | Registered a => wrap b w (getDeflectionEquation a fuel b w)
  | Inherited _ => Thrown (TypeError "analyzer.getDeflectionEquation is not a function")
  | Undefined => Thrown (Error "Invalid condition")
  end.

Definition getBendingMoment (fuel : nat) (b : Beam num) (w : num) (condition : string)
    : Completion AnalysisResult :=
  match analyzer_lookup condition with
  | Registered a => wrap b w (getBendingMomentEquation a fuel b w)
  | Inherited _ => Thrown (TypeError "analyzer.getBendingMomentEquation is not a function")
  | Undefined => Thrown (Error "Invalid condition")
  end.

Definition getShearForce (fuel : nat) (b : Beam num) (w : num) (condition : string)
    : Completion AnalysisResult :=
  match analyzer_lookup condition with
  | Registered a => wrap b w (getShearForceEquation a fuel b w)
  | Inherited _ => Thrown (TypeError "analyzer.getShearForceEquation is not a function")
  | Undefined => Thrown (Error "Invalid condition")
  end.

End Facade.

Arguments AnalysisResult num : clear implicits.

(** ** The plotter [AnalysisPlotter]

    [plot(data)] builds a [Chart] (Chart.js) on the canvas of the quantity
    named by [data.equation.analys]; the shear-force chart is also updated.
    The calls it makes on the charting library are kept as a list. *)

Module AnalysisPlotter.

(** An entry of [data.datasets]. *)
Record Dataset : Type := {
  label : string;
  data : list string;
  borderWidth : Z;
  borderColor : string;
  fill : bool
}.

(** The configuration object given to [new Chart]: [type], [data.labels],
    [data.datasets] and [options.legend.display]. *)
Record Config : Type := {
  type : string;
  labels : list string;
  datasets : list Dataset;
  legend_display : bool
}.

Inductive Call : Type :=
| New (canvas : string) (config : Config)   (* [new Chart(canvas, config)] *)
| Update (canvas : string).                 (* [chart.update()] *)

Definition plot {num : Type} (data : AnalysisResult num) : list Call :=
  if String.eqb (analys (equation data)) "shearforce" then
    [ New "shear_force_plot"
        {| type := "line";
           labels := xdata (equation data);
           datasets := [ {| label := "Shear Force";
                            data := ydata (equation data);
                            borderWidth := 2;
                            borderColor := "rgb(255, 15, 15)";
                            fill := true |} ];
           legend_display := true |};
      Update "shear_force_plot" ]
  else if String.eqb (analys (equation data)) "bendingmoment" then
    [ New "bending_moment_plot"
        {| type := "line";
           labels := xdata (equation data);
           datasets := [ {| label := "Bending Moment";
                            borderWidth := 2;
                            fill := true;
                            borderColor := "rgb(255, 15, 15)";
                            data := ydata (equation data) |} ];
           legend_display := true |} ]
  else if String.eqb (analys (equation data)) "deflection" then
    [ New "deflection_plot"
        {| type := "line";
           labels := xdata (equation data);
           datasets := [ {| label := "Deflection";
                            borderWidth := 2;
                            fill := true;
                            borderColor := "rgb(255, 15, 15)";
                            data := ydata (equation data) |} ];
           legend_display := true |} ]
  else [].

End AnalysisPlotter.

(** ** Concrete beams *)

Definition steel {num} `{JSNumber num} : Material num :=
  {| name := "steel"; properties := {| EI := ofZ 2000000000 |} |}.

(** [new Beam(a, b, steel)] with integer spans, and [j2] attached as 1. *)
Definition beam_of {num} `{JSNumber num} (a b : Z) : Beam num :=
  {| primarySpan := ofZ a; secondarySpan := ofZ b; material := steel; j2 := ofZ 1 |}.

(** [new Beam(4, 0, steel)] as the constructor leaves it: [j2] is not set,
    and an unset [j2] enters the products of the deflection formulas as
    NaN. *)
Definition beam_without_j2 : Beam float :=
  {| primarySpan := ofZ 4; secondarySpan := ofZ 0; material := steel; j2 := nan |}.

(** [Number.MIN_VALUE], the least positive double, printed [5e-324]. *)
Definition min_value : float := 0x1p-1074%float.


(** * Notions used in the statements and proofs *)

Local Open Scope list_scope.
Local Open Scope Q_scope.

(** The number read back from [q.toFixed(2)], in exact arithmetic. *)
Definition round2 (q : Q) : Q := Q_ofFixed (Q_toFixed2 q).

(** ** A common shape for the three two-span loops *)

(** [adv] is the update of the [for] statement, [val i s] the ordinate
    emitted at the [i]-th iteration in state [s]. *)
Fixpoint run (adv : Vars Q -> Vars Q) (val : nat -> Vars Q -> Q) (l : Q)
    (fuel i : nat) (s : Vars Q) (acc : Samples Q) : option (Samples Q) :=
  match fuel with
  | O => None
  | S fuel' =>
      if Qle_bool (var_m s) l then
        let acc := (var_m s, val i s) :: acc in
        if Qeq_bool (var_m s) l then Some acc
        else run adv val l fuel' (S i) (adv s) acc
      else Some acc
  end.

(** The number of nominal steps [l/100] from [x] to [l], rounded up. *)
Definition steps_left (l x : Q) : Z := Qceiling ((l - x) / (l / 100)).

(** A generator ends at [l]: its loop returns, the newest sample lies at a
    position equal to [l], and the last abscissa of the curve is [l] printed
    with two decimals. *)
Definition ends_at (l : Q) (samples : option (Samples Q)) (curve : option Curve) : Prop :=
  exists x y rest c,
    samples = Some ((x, y) :: rest) /\ x == l /\
    curve = Some c /\ last (xdata c) ""%string = show (Q_toFixed2 l).

(** ** The shear-force loop *)

Section ShearNotions.

Variables l l1 r1 r2 w : Q.

Local Abbreviation dl := (l / 100).

(** The update [m = calculateValue(m, mn, l1, l)], case by case. *)
Inductive shear_step (s : Vars Q) : Vars Q -> Prop :=
| shear_start :
    var_m s == 0 ->
    shear_step s {| var_m := var_m s + dl;
                    var_lk := (var_m s + dl) - ((var_m s + dl) + dl) |}
| shear_snap :
    ~ var_m s == 0 ->
    - dl <= var_m s - l1 <= dl -> var_m s - l1 < 0 ->
    shear_step s {| var_m := l1; var_lk := var_m s |}
| shear_again :
    ~ var_m s == 0 ->
    var_m s - l1 == 0 ->
    - dl <= var_lk s - l1 <= dl -> ~ var_lk s == var_m s ->
    shear_step s {| var_m := l1; var_lk := var_m s |}
| shear_end :
    ~ var_m s == 0 ->
    ~ (- dl <= var_m s - l1 <= dl /\ var_m s - l1 < 0) ->
    ~ (var_m s - l1 == 0 /\ - dl <= var_lk s - l1 <= dl /\ ~ var_lk s == var_m s) ->
    - dl < var_m s - l < dl ->
    shear_step s {| var_m := l; var_lk := var_lk s |}
| shear_next :
    ~ var_m s == 0 ->
    ~ (- dl <= var_m s - l1 <= dl /\ var_m s - l1 < 0) ->
    ~ (var_m s - l1 == 0 /\ - dl <= var_lk s - l1 <= dl /\ ~ var_lk s == var_m s) ->
    ~ (- dl < var_m s - l < dl) ->
    shear_step s {| var_m := var_m s + dl;
                    var_lk := (var_m s + dl) - (var_lk s + dl) |}.

(** The variant: three per nominal step left, less one at the support and
    less two at its second visit. *)
Definition shear_mu (s : Vars Q) : Z :=
  3 * steps_left l (var_m s)
  + (if Qeq_bool (var_m s) l1
     then (if Qeq_bool (var_lk s) l1 then 0 else 1)
     else 2).

(** The ordinate the loop body emits, [calculate(m, mn, m, r1, r2, w, l, l1)]. *)
Definition shear_value (i : nat) (s : Vars Q) : Q :=
  calculate (var_m s) (var_lk s) (var_m s) r1 r2 w l l1.

(** The samples emitted so far, newest first, at each of the four phases of
    the loop: before the support, at its first and second visit, after. *)
Definition left_of_support (acc : Samples Q) : Prop :=
  Forall (fun p => fst p < l1) acc.

Definition right_of_support (acc : Samples Q) : Prop :=
  Forall (fun p => l1 < fst p) acc.

Definition support_pair (p1 p2 : Q * Q) : Prop :=
  fst p1 == l1 /\ snd p1 == r1 - w * l1 /\
  fst p2 == l1 /\ snd p2 == r1 + r2 - w * l1.

Definition shear_phase (s : Vars Q) (acc : Samples Q) : Prop :=
  (var_m s < l1 /\ left_of_support acc) \/
  (var_m s == l1 /\ var_lk s < l1 /\ l1 - var_lk s <= dl /\ left_of_support acc) \/
  (var_m s == l1 /\ var_lk s == l1 /\
   exists p1 pre, acc = p1 :: pre /\ fst p1 == l1 /\ snd p1 == r1 - w * l1 /\
                  left_of_support pre) \/
  (l1 < var_m s /\ var_m s <= l /\
   exists post p2 p1 pre,
     acc = post ++ p2 :: p1 :: pre /\
     right_of_support post /\ support_pair p1 p2 /\ left_of_support pre).

End ShearNotions.

(** ** The deflection and bending-moment loops *)

Section BendingNotions.

Variables l l1 r1 w r3 : Q.

(** The nominal step and the zero-shear points, as [calculateValue]
    computes them. *)
Local Abbreviation dl := (l / 100).
Local Abbreviation a := (r1 / w).
Local Abbreviation b := (l - r3 / w).

(** The conditions of [calculateValue], in the order it tests them. *)
Definition near_support (s : Vars Q) : Prop :=
  - dl <= var_m s - l1 <= dl /\ var_m s - l1 < 0.

Definition near_zero_shear_1 (s : Vars Q) : Prop :=
  ((var_m s < l1 /\ ~ var_m s == a) /\ ~ var_lk s == a) /\
  - dl <= var_m s - a <= dl.

Definition near_end (s : Vars Q) : Prop := - dl < var_m s - l < dl.

Definition near_zero_shear_2 (s : Vars Q) : Prop :=
  ((l1 < var_m s /\ ~ var_m s == b) /\ ~ var_lk s == b) /\
  - dl < var_m s - b < dl.

Definition on_zero_shear (s : Vars Q) : Prop :=
  var_m s == a \/ var_m s == b.

(** The update [m = calculateValue(m, l, l1, r1, w, lk, r3)], case by case. *)
Inductive bending_step (s : Vars Q) : Vars Q -> Prop :=
| step_start :
    var_m s == 0 ->
    bending_step s {| var_m := var_m s + dl;
                      var_lk := (var_m s + dl) - ((var_m s + dl) + dl) |}
| step_support :
    ~ var_m s == 0 -> near_support s ->
    bending_step s {| var_m := l1; var_lk := var_m s |}
| step_zero_shear_1 :
    ~ var_m s == 0 -> ~ near_support s -> near_zero_shear_1 s ->
    bending_step s {| var_m := a; var_lk := var_m s |}
| step_end :
    ~ var_m s == 0 -> ~ near_support s -> ~ near_zero_shear_1 s -> near_end s ->
    bending_step s {| var_m := l; var_lk := var_lk s |}
| step_zero_shear_2 :
    ~ var_m s == 0 -> ~ near_support s -> ~ near_zero_shear_1 s -> ~ near_end s ->
    near_zero_shear_2 s ->
    bending_step s {| var_m := b; var_lk := var_m s |}
| step_resume :
    ~ var_m s == 0 -> ~ near_support s -> ~ near_zero_shear_1 s -> ~ near_end s ->
    ~ near_zero_shear_2 s -> on_zero_shear s ->
    bending_step s {| var_m := var_lk s + dl; var_lk := var_m s |}
| step_next :
    ~ var_m s == 0 -> ~ near_support s -> ~ near_zero_shear_1 s -> ~ near_end s ->
    ~ near_zero_shear_2 s -> ~ on_zero_shear s ->
    bending_step s {| var_m := var_m s + dl;
                      var_lk := (var_m s + dl) - (var_m s + dl) |}.

(** The sampling grid: the multiples of the nominal step, and the support
    plus such multiples. *)
Definition on_grid (x : Q) : Prop :=
  exists k : Z, x == inject_Z k * dl \/ x == l1 + inject_Z k * dl.

(** At the loop head the position is on the grid, or it is a zero-shear
    point reached from the grid position kept in [lk]. *)
Definition bending_inv (s : Vars Q) : Prop :=
  var_m s <= l /\
  (on_grid (var_m s) \/
   (on_zero_shear s /\ on_grid (var_lk s) /\ var_lk s + dl <= l)).

(** The variant: three per nominal step left, counted from the look-back
    position while on a zero-shear point, less one at the critical points. *)
Definition bending_mu (s : Vars Q) : Z :=
  if Qeq_bool (var_m s) a || Qeq_bool (var_m s) b
  then 3 * steps_left l (var_lk s) + 1
  else if Qeq_bool (var_m s) l1
       then 3 * steps_left l l1 + 1
       else 3 * steps_left l (var_m s) + 2.

End BendingNotions.

(** ** Shapes of the sampled curves *)

(** What a loop that starts at position [x0] and is guarded by [x <= l] has
    added to the samples it was given: positions that passed the guard, the
    oldest of them [x0]. *)
Definition guarded {num : Type} `{JSNumber num} (l x0 : num) (acc res : Samples num)
    : Prop :=
  exists new,
    res = new ++ acc /\
    Forall (fun p => leb (fst p) l = true) new /\
    (new = [] \/ exists front y, new = front ++ [(x0, y)]).

(** ** Positions of the simply supported loops *)

(** The position of the [k]-th iteration of
    [for (let x = 0; x <= span; x += span/100)]: [k] additions of [span/100]
    to 0, in the arithmetic of the program. *)
Definition ss_position {num : Type} `{JSNumber num} (span : num) (k : nat) : num :=
  Nat.iter k (fun x => add x (div span (ofZ 100))) (ofZ 0).

(** The samples of the first [n] iterations of a loop with the body
    [value], in the order of the returned arrays. *)
Definition ss_samples {num : Type} `{JSNumber num} (value : num -> num) (span : num)
    (n : nat) : Samples num :=
  map (fun k => (ss_position span k, value (ss_position span k))) (seq 0 n).

(** The loop test [x <= span] passes at the first [n] positions and fails at
    the next one. *)
Definition ss_stops_after {num : Type} `{JSNumber num} (span : num) (n : nat) : Prop :=
  (forall k, (k < n)%nat -> leb (ss_position span k) span = true) /\
  leb (ss_position span n) span = false.

(** ** Tactics *)

(** The operations of [QNumber], spelled as those of [Q]. *)
Ltac q_ops :=
  change (@eqb Q QNumber) with Qeq_bool in *;
  change (@leb Q QNumber) with Qle_bool in *;
  change (@ltb Q QNumber) with (fun x y : Q => negb (Qle_bool y x)) in *;
  change (@add Q QNumber) with Qplus in *;
  change (@sub Q QNumber) with Qminus in *;
  change (@mul Q QNumber) with Qmult in *;
  change (@div Q QNumber) with Qdiv in *;
  change (@neg Q QNumber) with Qopp in *;
  change (@abs Q QNumber) with Qabs in *;
  change (@ofZ Q QNumber) with inject_Z in *;
  change (@toFixed2 Q QNumber) with Q_toFixed2 in *;
  change (@ofFixed Q QNumber) with Q_ofFixed in *;
  cbv beta in *;
  change (inject_Z 0) with 0 in *;
  change (inject_Z 100) with 100 in *.

(** Reduction of the tests and of the record projections only. *)
Ltac q_simpl := cbn [andb orb negb var_m var_lk fst snd].
Ltac q_simpl_in H := cbn [andb orb negb var_m var_lk fst snd] in H.

(** * Properties that hold for every number type *)

Section Generic.

Context {num : Type} `{JSNumber num}.

Local Open Scope js_scope.

Lemma xs_of_length (acc : Samples num) : List.length (xs_of acc) = List.length acc.
Proof. unfold xs_of. now rewrite length_rev, length_map. Qed.

Lemma ys_of_length (acc : Samples num) : List.length (ys_of acc) = List.length acc.
Proof. unfold ys_of. now rewrite length_rev, length_map. Qed.

(** A curve built from emitted samples has as many abscissas as ordinates. *)
Lemma curve_of_lengths (kind : string) (acc : Samples num) :
  List.length (xdata (curve_of kind acc)) = List.length (ydata (curve_of kind acc)).
Proof. simpl. now rewrite xs_of_length, ys_of_length. Qed.

Lemma option_map_some {A B : Type} (f : A -> B) (o : option A) (b : B) :
  option_map f o = Some b -> exists a, o = Some a /\ b = f a.
Proof. destruct o as [a|]; simpl; [|discriminate]. intros [= <-]. now exists a. Qed.

(** Every generator returns arrays of equal length. *)
Lemma generators_equal_lengths (fuel : nat) (b : Beam num) (w : num) (c : Curve) :
  In (Some c)
     [ ss_getDeflectionEquation fuel b w; ss_getBendingMomentEquation fuel b w;
       ss_getShearForceEquation fuel b w; ts_getDeflectionEquation fuel b w;
       ts_getBendingMomentEquation fuel b w; ts_getShearForceEquation fuel b w ] ->
  List.length (xdata c) = List.length (ydata c).
Proof.
  intros Hin.
  assert (Hmap : forall kind o, option_map (curve_of kind) o = Some c ->
                 List.length (xdata c) = List.length (ydata c)).
  { intros kind o Ho. apply option_map_some in Ho.
    destruct Ho as (a & _ & ->). apply curve_of_lengths. }
  simpl in Hin.
  destruct Hin as [Hin | [Hin | [Hin | [Hin | [Hin | [Hin | []]]]]]];
    exact (Hmap _ _ Hin).
Qed.

(** The samples of the simply supported loops pair each position with the
    value of the loop body there. *)
Lemma ss_loop_values (value : num -> num) (span : num) :
  forall (fuel : nat) (x : num) (acc res : Samples num),
    ss_loop fuel value span x acc = Some res ->
    Forall (fun s => snd s = value (fst s)) acc ->
    Forall (fun s => snd s = value (fst s)) res.
Proof.
  induction fuel as [|fuel IH]; simpl; intros x acc res Hres Hacc; [discriminate|].
  destruct (x <=? span).
  - apply IH in Hres; [exact Hres|]. constructor; [reflexivity | exact Hacc].
  - now injection Hres as <-.
Qed.

(** The deflection loop chooses its formula by the number of samples emitted
    before, whatever the position. *)
Lemma deflection_loop_formula (Ei j l l1 r1 r2 r3 w : num) :
  forall (fuel i : nat) (s : Vars num) (acc res : Samples num),
    deflection_loop fuel Ei j l l1 r1 r2 r3 w i s acc = Some res ->
    exists new,
      res = new ++ acc /\
      forall (k : nat) (x y : num),
        nth_error (rev new) k = Some (x, y) ->
        y = if (i + k <=? 11)%nat
            then calculatePoint1 x Ei r1 w l1 j
            else calculatePoint2 x r1 r2 l1 w Ei j.
Proof.
  induction fuel as [|fuel IH]; simpl; intros i s acc res Hres; [discriminate|].
  destruct (var_m s <=? l).
  - set (y := if (i <=? 11)%nat then _ else _) in Hres.
    assert (Hhead : forall (k : nat) (x0 y0 : num) (new : Samples num),
               (forall k x y, nth_error (rev new) k = Some (x, y) ->
                  y = if (S i + k <=? 11)%nat
                      then calculatePoint1 x Ei r1 w l1 j
                      else calculatePoint2 x r1 r2 l1 w Ei j) ->
               nth_error (rev (new ++ [(var_m s, y)])) k = Some (x0, y0) ->
               y0 = if (i + k <=? 11)%nat
                    then calculatePoint1 x0 Ei r1 w l1 j
                    else calculatePoint2 x0 r1 r2 l1 w Ei j).
    { intros k x0 y0 new Hnew. rewrite rev_app_distr. simpl.
      destruct k as [|k]; simpl.
      - intros [= <- <-]. now rewrite Nat.add_0_r.
      - intros Hk. apply Hnew in Hk. now rewrite Nat.add_succ_r. }
    destruct (var_m s === l).
    + injection Hres as <-. exists [(var_m s, y)]. split; [reflexivity|].
      intros k x0 y0. apply (Hhead k x0 y0 []). intros [|?] ? ?; discriminate.
    + apply IH in Hres. destruct Hres as (new & -> & Hnew).
      exists (new ++ [(var_m s, y)]). split; [now rewrite <- app_assoc|].
      intros k x0 y0. now apply Hhead.
  - injection Hres as <-. exists []. split; [reflexivity|].
    intros [|?] ? ?; discriminate.
Qed.

(** The bending-moment loop pairs each position with
    [calculateRoundedValue] there. *)
Lemma bending_loop_values (l l1 r1 r2 r3 w : num) :
  forall (fuel : nat) (s : Vars num) (acc res : Samples num),
    bending_loop fuel l l1 r1 r2 r3 w s acc = Some res ->
    Forall (fun p => snd p = calculateRoundedValue (fst p) l l1 r1 w r2) acc ->
    Forall (fun p => snd p = calculateRoundedValue (fst p) l l1 r1 w r2) res.
Proof.
  induction fuel as [|fuel IH]; simpl; intros s acc res Hres Hacc; [discriminate|].
  destruct (var_m s <=? l).
  - destruct (var_m s === l).
    + injection Hres as <-. constructor; [reflexivity | exact Hacc].
    + apply IH in Hres; [exact Hres|]. constructor; [reflexivity | exact Hacc].
  - now injection Hres as <-.
Qed.

(** The facade throws [Error('Invalid condition')] exactly when the lookup
    finds nothing, own or inherited. *)
Lemma facade_invalid_condition (fuel : nat) (b : Beam num) (w : num) (condition : string) :
  analyzer_lookup condition = Undefined ->
  getDeflection fuel b w condition = Thrown (Error "Invalid condition") /\
  getBendingMoment fuel b w condition = Thrown (Error "Invalid condition") /\
  getShearForce fuel b w condition = Thrown (Error "Invalid condition").
Proof.
  intros Hl. unfold getDeflection, getBendingMoment, getShearForce.
  now rewrite Hl.
Qed.

Lemma analyzer_lookup_undefined (condition : string) :
  condition <> "simply-supported" ->
  condition <> "two-span-unequal" ->
  ~ In condition object_prototype_keys ->
  analyzer_lookup condition = Undefined.
Proof.
  intros H1 H2 H3. unfold analyzer_lookup.
  apply String.eqb_neq in H1. apply String.eqb_neq in H2. rewrite H1, H2.
  destruct (existsb (String.eqb condition) object_prototype_keys) eqn:E; [|reflexivity].
  apply existsb_exists in E. destruct E as (k & Hk & Heq).
  apply String.eqb_eq in Heq. now subst k.
Qed.

(** The simply supported loops, unrolled: the samples are taken at the
    positions [ss_position], as long as these pass the loop test. *)
Lemma ss_loop_unfold (value : num -> num) (span : num) :
  forall (fuel k : nat) (acc res : Samples num),
    ss_loop fuel value span (ss_position span k) acc = Some res ->
    exists n,
      (n < fuel)%nat /\
      res = rev (map (fun i => (ss_position span i, value (ss_position span i))) (seq k n))
            ++ acc /\
      (forall i, (k <= i < k + n)%nat -> (ss_position span i <=? span) = true) /\
      (ss_position span (k + n) <=? span) = false.
Proof.
  induction fuel as [|fuel IH]; intros k acc res Hres; simpl in Hres; [discriminate|].
  destruct (ss_position span k <=? span) eqn:Hg.
  - apply (IH (S k)) in Hres. destruct Hres as (n & Hn & -> & Hpass & Hstop).
    exists (S n). split; [lia|]. split; [|split].
    + simpl. now rewrite <- app_assoc.
    + intros i Hi. destruct (Nat.eq_dec i k) as [-> | Hne]; [exact Hg|].
      apply Hpass. lia.
    + now rewrite Nat.add_succ_r.
  - injection Hres as <-. exists 0%nat. split; [lia|]. split; [reflexivity|]. split.
    + intros i Hi. lia.
    + now rewrite Nat.add_0_r.
Qed.

Lemma ss_loop_fold (value : num -> num) (span : num) :
  forall (n fuel k : nat) (acc : Samples num),
    (n < fuel)%nat ->
    (forall i, (k <= i < k + n)%nat -> (ss_position span i <=? span) = true) ->
    (ss_position span (k + n) <=? span) = false ->
    ss_loop fuel value span (ss_position span k) acc
    = Some (rev (map (fun i => (ss_position span i, value (ss_position span i))) (seq k n))
            ++ acc).
Proof.
  induction n as [|n IH]; intros fuel k acc Hfuel Hpass Hstop;
    (destruct fuel as [|fuel]; [lia|]); simpl.
  - rewrite Nat.add_0_r in Hstop. now rewrite Hstop.
  - rewrite (Hpass k) by lia.
    rewrite (IH fuel (S k)); [now rewrite <- app_assoc | lia | |].
    + intros i Hi. apply Hpass. lia.
    + now rewrite Nat.add_succ_r in Hstop.
Qed.

(** A simply supported loop returns exactly when the loop test fails at
    some position [ss_position span n] with [n] below the number of
    iterations allowed, and then it returns the samples of the first [n]
    positions. *)
Lemma ss_loop_samples (value : num -> num) (span : num) (fuel : nat) (res : Samples num) :
  ss_loop fuel value span (ofZ 0) [] = Some res <->
  exists n, (n < fuel)%nat /\ ss_stops_after span n /\
            res = rev (ss_samples value span n).
Proof.
  split.
  - intros Hres. apply (ss_loop_unfold value span fuel 0) in Hres.
    destruct Hres as (n & Hn & -> & Hpass & Hstop).
    exists n. split; [exact Hn|]. split; [split|].
    + intros k Hk. apply Hpass. lia.
    + exact Hstop.
    + unfold ss_samples. now rewrite app_nil_r.
  - intros (n & Hn & (Hpass & Hstop) & ->).
    change (ofZ 0) with (ss_position span 0).
    rewrite (ss_loop_fold value span n fuel 0 [] Hn).
    + now rewrite app_nil_r.
    + intros i Hi. apply Hpass. lia.
    + exact Hstop.
Qed.

(** The three simply supported generators, as one statement on a generator
    [gen] built from the loop with the body [value]. *)
Lemma ss_generator_samples (kind : string) (value : num -> num) (span : num)
    (fuel : nat) (c : Curve) :
  option_map (curve_of kind) (ss_loop fuel value span (ofZ 0) []) = Some c <->
  exists n, (n < fuel)%nat /\ ss_stops_after span n /\
            c = curve_of kind (rev (ss_samples value span n)).
Proof.
  split.
  - intros Hc. apply option_map_some in Hc. destruct Hc as (res & Hres & ->).
    apply ss_loop_samples in Hres. destruct Hres as (n & Hn & Hstop & ->).
    now exists n.
  - intros (n & Hn & Hstop & ->).
    assert (Hres : ss_loop fuel value span (ofZ 0) [] = Some (rev (ss_samples value span n))).
    { apply ss_loop_samples. now exists n. }
    now rewrite Hres.
Qed.

(** The loops only add samples to those they were given. *)
Lemma bending_loop_extends (l l1 r1 r2 r3 w : num) :
  forall (fuel : nat) (s : Vars num) (acc res : Samples num),
    bending_loop fuel l l1 r1 r2 r3 w s acc = Some res ->
    exists new, res = new ++ acc.
Proof.
  induction fuel as [|fuel IH]; simpl; intros s acc res Hres; [discriminate|].
  destruct (var_m s <=? l); [|injection Hres as <-; now exists []].
  destruct (var_m s === l).
  - injection Hres as <-. now eexists [_].
  - apply IH in Hres. destruct Hres as (new & ->).
    eexists (new ++ [_]). now rewrite <- app_assoc.
Qed.

Lemma shear_loop_extends (l l1 r1 r2 w : num) :
  forall (fuel : nat) (s : Vars num) (acc res : Samples num),
    shear_loop fuel l l1 r1 r2 w s acc = Some res ->
    exists new, res = new ++ acc.
Proof.
  induction fuel as [|fuel IH]; simpl; intros s acc res Hres; [discriminate|].
  destruct (var_m s <=? l); [|injection Hres as <-; now exists []].
  destruct (var_m s === l).
  - injection Hres as <-. now eexists [_].
  - apply IH in Hres. destruct Hres as (new & ->).
    eexists (new ++ [_]). now rewrite <- app_assoc.
Qed.

(** When the loop test passes at the start, the first sample emitted is the
    one of the starting position. *)
Lemma bending_loop_first (l l1 r1 r2 r3 w : num) (fuel : nat) (s : Vars num)
    (res : Samples num) :
  bending_loop fuel l l1 r1 r2 r3 w s [] = Some res ->
  (var_m s <=? l) = true ->
  exists rest,
    emitted res = (var_m s, calculateRoundedValue (var_m s) l l1 r1 w r2) :: rest.
Proof.
  destruct fuel as [|fuel]; simpl; [discriminate|]. intros Hres Hg. rewrite Hg in Hres.
  destruct (var_m s === l).
  - injection Hres as <-. now exists [].
  - apply bending_loop_extends in Hres. destruct Hres as (new & ->).
    exists (rev new). unfold emitted. now rewrite rev_app_distr.
Qed.

Lemma shear_loop_first (l l1 r1 r2 w : num) (fuel : nat) (s : Vars num)
    (res : Samples num) :
  shear_loop fuel l l1 r1 r2 w s [] = Some res ->
  (var_m s <=? l) = true ->
  exists rest,
    emitted res
    = (var_m s, calculate (var_m s) (var_lk s) (var_m s) r1 r2 w l l1) :: rest.
Proof.
  destruct fuel as [|fuel]; simpl; [discriminate|]. intros Hres Hg. rewrite Hg in Hres.
  destruct (var_m s === l).
  - injection Hres as <-. now exists [].
  - apply shear_loop_extends in Hres. destruct Hres as (new & ->).
    exists (rev new). unfold emitted. now rewrite rev_app_distr.
Qed.

(** A loop whose states stay in a set on which the loop test passes and the
    end is not reached never returns. *)
Lemma bending_loop_never_returns (l l1 r1 r2 r3 w : num) (stuck : Vars num -> Prop) :
  (forall s, stuck s ->
     (var_m s <=? l) = true /\ (var_m s === l) = false /\
     stuck (advance l l1 r1 w r3 s)) ->
  forall (fuel : nat) (s : Vars num) (acc : Samples num),
    stuck s -> bending_loop fuel l l1 r1 r2 r3 w s acc = None.
Proof.
  intros Hstuck. induction fuel as [|fuel IH]; intros s acc Hs; [reflexivity|].
  destruct (Hstuck s Hs) as (Hg & He & Hnext).
  cbn [bending_loop]. rewrite Hg, He. now apply IH.
Qed.

Lemma deflection_loop_never_returns (Ei j l l1 r1 r2 r3 w : num)
    (stuck : Vars num -> Prop) :
  (forall s, stuck s ->
     (var_m s <=? l) = true /\ (var_m s === l) = false /\
     stuck (advance l l1 r1 w r3 s)) ->
  forall (fuel i : nat) (s : Vars num) (acc : Samples num),
    stuck s -> deflection_loop fuel Ei j l l1 r1 r2 r3 w i s acc = None.
Proof.
  intros Hstuck. induction fuel as [|fuel IH]; intros i s acc Hs; [reflexivity|].
  destruct (Hstuck s Hs) as (Hg & He & Hnext).
  cbn [deflection_loop]. rewrite Hg, He. now apply IH.
Qed.

End Generic.

(** * Exact arithmetic *)

Lemma Qeqb_spec (x y : Q) : reflect (x == y) (Qeq_bool x y).
Proof.
  destruct (Qeq_bool x y) eqn:E; constructor.
  - now apply Qeq_bool_iff.
  - now apply Qeq_bool_neq.
Qed.

Lemma Qleb_spec (x y : Q) : reflect (x <= y) (Qle_bool x y).
Proof.
  destruct (Qle_bool x y) eqn:E; constructor.
  - now apply Qle_bool_iff.
  - intros Hle. apply Qle_bool_iff in Hle. congruence.
Qed.

Lemma Qltb_spec (x y : Q) : reflect (x < y) (negb (Qle_bool y x)).
Proof.
  destruct (Qleb_spec y x); constructor; lra.
Qed.

(** [toFixed(2)] does not depend on the fraction that represents a rational. *)
Lemma Q_toFixed2_comp (x y : Q) : x == y -> Q_toFixed2 x = Q_toFixed2 y.
Proof.
  intros Hxy. unfold Q_toFixed2, Q_cents. f_equal.
  - f_equal. destruct (Qleb_spec 0 x), (Qleb_spec 0 y); try reflexivity; lra.
  - apply Qfloor_comp. now rewrite Hxy.
Qed.


(** It is within half a hundredth of [q]. *)
Lemma round2_error (q : Q) : Qabs (round2 q - q) <= 1 # 200.
Proof.
  unfold round2, Q_toFixed2, Q_ofFixed, Q_cents.
  remember (Qabs q * 100 + (1 # 2)) as t eqn:Ht.
  remember (Qfloor t) as n eqn:Hn.
  assert (Hlo : inject_Z n <= t) by (subst n; apply Qfloor_le).
  assert (Hhi : t < inject_Z (n + 1)) by (subst n; apply Qlt_floor).
  rewrite inject_Z_plus in Hhi. change (inject_Z 1) with 1 in Hhi.
  assert (Hc : (n # 100) == inject_Z n * (1 # 100)).
  { unfold Qeq, Qmult, inject_Z. simpl. lia. }
  assert (Ht' : t == Qabs q * 100 + (1 # 2)) by now rewrite Ht.
  clear Ht Hn.
  apply Qabs_Qle_condition.
  destruct (Qleb_spec 0 q) as [Hq | Hq]; cbv [negb]; rewrite Hc.
  - assert (Ha : Qabs q == q) by now apply Qabs_pos. lra.
  - assert (Ha : Qabs q == - q) by (apply Qabs_neg; lra). lra.
Qed.

Lemma round2_comp (x y : Q) : x == y -> round2 x = round2 y.
Proof. intros Hxy. unfold round2. now rewrite (Q_toFixed2_comp x y). Qed.

Lemma hundredth (l : Q) : l == 100 * (l / 100).
Proof. field. Qed.

(** ** Simply supported beam, exactly *)

Section SimplySupportedExact.

Variable value : Q -> Q.
Variable l : Q.
Hypothesis l_pos : 0 < l.

Lemma ss_loop_grid :
  forall (n k : nat) (x : Q) (acc : Samples Q) (fuel : nat),
    (k + n = 101)%nat ->
    x == inject_Z (Z.of_nat k) * (l / 100) ->
    (n < fuel)%nat ->
    exists new,
      ss_loop fuel value l x acc = Some (new ++ acc) /\
      List.length new = n /\
      forall i, (i < n)%nat ->
        exists x', nth_error (rev new) i = Some (x', value x') /\
                   x' == inject_Z (Z.of_nat (k + i)) * (l / 100).
Proof.
  pose proof (hundredth l) as Hd.
  induction n as [|n IH]; intros k x acc fuel Hk Hx Hfuel.
  - destruct fuel as [|fuel]; [lia|]. simpl.
    assert (Hgt : l < x).
    { rewrite Hx. replace k with 101%nat by lia.
      change (inject_Z (Z.of_nat 101)) with 101.
      set (d := l / 100) in *. lra. }
    destruct (Qleb_spec x l); [lra|].
    exists []. split; [reflexivity | split; [reflexivity | intros i Hi; lia]].
  - destruct fuel as [|fuel]; [lia|]. simpl.
    assert (Hle : x <= l).
    { rewrite Hx.
      assert (Hk' : inject_Z (Z.of_nat k) <= 100).
      { change 100 with (inject_Z 100). rewrite <- Zle_Qle. lia. }
      set (d := l / 100) in *. nra. }
    destruct (Qleb_spec x l); [|lra].
    destruct (IH (S k) (x + l / inject_Z 100) ((x, value x) :: acc) fuel)
      as (new & Hrun & Hlen & Hnth); [lia | | lia |].
    { rewrite Hx, Nat2Z.inj_succ, <- Z.add_1_r, inject_Z_plus.
      change (inject_Z 1) with 1. change (inject_Z 100) with 100.
      set (d := l / 100) in *. lra. }
    exists (new ++ [(x, value x)]). split; [|split].
    + rewrite Hrun. now rewrite <- app_assoc.
    + rewrite length_app. simpl. lia.
    + intros i Hi. rewrite rev_app_distr. simpl.
      destruct i as [|i]; simpl.
      * exists x. split; [reflexivity|]. now rewrite Nat.add_0_r.
      * destruct (Hnth i) as (x' & Hx' & Hpos); [lia|].
        exists x'. split; [exact Hx'|]. now rewrite Nat.add_succ_r.
Qed.

(** In exact arithmetic the loop emits the 101 positions [k * l / 100],
    [k = 0 .. 100], in this order. *)
Lemma ss_loop_exact (fuel : nat) :
  (101 < fuel)%nat ->
  exists res,
    ss_loop fuel value l 0 [] = Some res /\
    List.length res = 101%nat /\
    forall i, (i < 101)%nat ->
      exists x, nth_error (emitted res) i = Some (x, value x) /\
                x == inject_Z (Z.of_nat i) * (l / 100).
Proof.
  intros Hfuel.
  destruct (ss_loop_grid 101 0 0 [] fuel) as (new & Hrun & Hlen & Hnth);
    [reflexivity | change (inject_Z (Z.of_nat 0)) with 0; ring | exact Hfuel |].
  exists new. rewrite app_nil_r in Hrun. repeat split; assumption.
Qed.

(** When the body takes equal printed values at [x] and [l - x], the
    returned ordinates read the same in both directions. *)
Lemma ss_ydata_symmetric (res : Samples Q) :
  (forall x y, x + y == l -> Q_toFixed2 (value x) = Q_toFixed2 (value y)) ->
  List.length res = 101%nat ->
  (forall i, (i < 101)%nat ->
     exists x, nth_error (emitted res) i = Some (x, value x) /\
               x == inject_Z (Z.of_nat i) * (l / 100)) ->
  ys_of res = rev (ys_of res).
Proof.
  intros Hsym Hlen Hnth.
  pose proof (hundredth l) as Hd.
  unfold ys_of. rewrite rev_involutive, <- map_rev.
  fold (emitted res).
  assert (HlenE : List.length (emitted res) = 101%nat)
    by (unfold emitted; now rewrite length_rev).
  rewrite <- (rev_involutive res) at 2. fold (emitted res).
  rewrite map_rev.
  set (g := fun s : Q * Q => show (toFixed2 (snd s))).
  apply nth_error_ext. intros n.
  rewrite nth_error_rev, length_map, HlenE.
  destruct (Nat.ltb_spec n 101) as [Hn | Hn].
  - rewrite !nth_error_map.
    destruct (Hnth n Hn) as (x & -> & Hx).
    destruct (Hnth (101 - S n)%nat) as (y & -> & Hy); [lia|].
    cbn [option_map]. unfold g. cbn [snd].
    change (@toFixed2 Q QNumber) with Q_toFixed2.
    rewrite (Hsym x y); [reflexivity|].
    rewrite Hx, Hy.
    replace (Z.of_nat (101 - S n)) with (100 - Z.of_nat n)%Z by lia.
    unfold Zminus. rewrite inject_Z_plus, inject_Z_opp.
    change (inject_Z 100) with 100.
    set (d := l / 100) in *. lra.
  - apply nth_error_None. rewrite length_map, HlenE. lia.
Qed.

End SimplySupportedExact.

(** In exact arithmetic the three simply supported generators return 101
    samples, at the positions [i * l / 100] in increasing order. *)
Lemma ss_generators_exact (b : Beam Q) (w : Q) (fuel : nat) :
  0 < primarySpan b ->
  (101 < fuel)%nat ->
  forall gen kind value,
    In (gen, kind, value)
       [ (ss_getDeflectionEquation, "deflection"%string,
          ss_deflection_value w (primarySpan b) (EI (properties (material b))) (j2 b));
         (ss_getBendingMomentEquation, "bendingmoment"%string,
          ss_bending_value w (primarySpan b));
         (ss_getShearForceEquation, "shearforce"%string,
          ss_shear_value w (primarySpan b)) ] ->
    exists res,
      gen fuel b w = Some (curve_of kind res) /\
      Forall (fun s => snd s = value (fst s)) res /\
      List.length res = 101%nat /\
      forall i, (i < 101)%nat ->
        exists x, nth_error (emitted res) i = Some (x, value x) /\
                  x == inject_Z (Z.of_nat i) * (primarySpan b / 100).
Proof.
  intros Hl Hfuel gen kind value Hin.
  destruct (ss_loop_exact value (primarySpan b) Hl fuel Hfuel)
    as (res & Hrun & Hlen & Hnth).
  exists res. split; [|split; [|split; assumption]].
  2: { eapply ss_loop_values; [exact Hrun | constructor]. }
  simpl in Hin.
  destruct Hin as [Hin | [Hin | [Hin | []]]]; injection Hin as <- <- <-;
    [ unfold ss_getDeflectionEquation
    | unfold ss_getBendingMomentEquation
    | unfold ss_getShearForceEquation ];
    simpl; change (inject_Z 0) with 0; now rewrite Hrun.
Qed.

(** ** The reactions of the two-span beam *)

Lemma reactions_exact (w l1 l2 : Q) :
  0 < l1 -> 0 < l2 ->
  let m1 := - (w * l2 ^ 3 + w * l1 ^ 3) / (8 * (l1 + l2)) in
  let r1 := m1 / l1 + w * l1 / 2 in
  let r3 := m1 / l2 + w * l2 / 2 in
  let r2 := w * l1 + w * l2 - r1 - r3 in
  support_moment w l1 l2 == m1 /\
  reaction1 w l1 l2 == r1 /\
  reaction3 w l1 l2 == r3 /\
  reaction2 w l1 l2 == r2 /\
  r1 + r2 + r3 == w * (l1 + l2).
Proof.
  intros H1 H2 m1 r1 r3 r2.
  assert (Hm : support_moment w l1 l2 == m1).
  { unfold support_moment, m1, pow3. simpl. field. lra. }
  assert (Hr1 : reaction1 w l1 l2 == r1).
  { unfold reaction1, r1. simpl. rewrite Hm. reflexivity. }
  assert (Hr3 : reaction3 w l1 l2 == r3).
  { unfold reaction3, r3. simpl. rewrite Hm. reflexivity. }
  assert (Hr2 : reaction2 w l1 l2 == r2).
  { unfold reaction2, r2. simpl. rewrite Hr1, Hr3. reflexivity. }
  repeat split; try assumption.
  unfold r2. ring.
Qed.

(** C1. For every two-span-unequal call with spans [l1 > 0], [l2 > 0] and
    load [w], each of the three generators runs its loop with the reactions
    [m1 = -(w*l2^3 + w*l1^3)/(8*(l1+l2))], [r1 = m1/l1 + w*l1/2],
    [r3 = m1/l2 + w*l2/2], [r2 = w*l1 + w*l2 - r1 - r3], and these satisfy
    the force balance [r1 + r2 + r3 = w*(l1+l2)], exactly over the
    rationals. *)
Theorem C1_reactions_force_balance (b : Beam Q) (w : Q) (fuel : nat) :
  0 < primarySpan b -> 0 < secondarySpan b ->
  let l1 := primarySpan b in
  let l2 := secondarySpan b in
  let m1 := - (w * l2 ^ 3 + w * l1 ^ 3) / (8 * (l1 + l2)) in
  let r1 := m1 / l1 + w * l1 / 2 in
  let r3 := m1 / l2 + w * l2 / 2 in
  let r2 := w * l1 + w * l2 - r1 - r3 in
  (ts_deflection_samples fuel b w =
     deflection_loop fuel (EI (properties (material b))) (j2 b) (l1 + l2) l1
       (reaction1 w l1 l2) (reaction2 w l1 l2) (reaction3 w l1 l2) w 0
       initial_vars [] /\
   ts_bending_samples fuel b w =
     bending_loop fuel (l1 + l2) l1
       (reaction1 w l1 l2) (reaction2 w l1 l2) (reaction3 w l1 l2) w
       initial_vars [] /\
   ts_shear_samples fuel b w =
     shear_loop fuel (l1 + l2) l1 (reaction1 w l1 l2) (reaction2 w l1 l2) w
       initial_vars []) /\
  support_moment w l1 l2 == m1 /\
  reaction1 w l1 l2 == r1 /\
  reaction3 w l1 l2 == r3 /\
  reaction2 w l1 l2 == r2 /\
  r1 + r2 + r3 == w * (l1 + l2).
Proof.
  intros H1 H2 l1 l2 m1 r1 r3 r2.
  split; [repeat split; reflexivity|].
  exact (reactions_exact w l1 l2 H1 H2).
Qed.

Lemma C1_witness :
  let b : Beam Q := beam_of 5 5 in
  let l1 := primarySpan b in
  let l2 := secondarySpan b in
  0 < l1 /\ 0 < l2 /\
  reaction1 1 l1 l2 + reaction2 1 l1 l2 + reaction3 1 l1 l2 == 1 * (l1 + l2).
Proof.
  intros b l1 l2.
  assert (H1 : 0 < primarySpan b) by reflexivity.
  assert (H2 : 0 < secondarySpan b) by reflexivity.
  split; [exact H1 | split; [exact H2|]].
  destruct (C1_reactions_force_balance b 1 200 H1 H2)
    as (_ & _ & Hr1 & Hr3 & Hr2 & Hsum).
  fold l1 l2 in Hr1, Hr2, Hr3, Hsum.
  rewrite Hr1, Hr2, Hr3. exact Hsum.
Defined.

(** ** Simply supported beam: the claims *)

Lemma ss_bending_value_exact (w l x : Q) :
  ss_bending_value w l x == - (w * x / 2) * (l - x).
Proof. unfold ss_bending_value. simpl. field. Qed.

Lemma ss_bending_value_comp (w l x y : Q) :
  x == y -> ss_bending_value w l x == ss_bending_value w l y.
Proof. intros Hxy. unfold ss_bending_value. simpl. now rewrite Hxy. Qed.

Lemma ss_shear_value_exact (w l x : Q) :
  ss_shear_value w l x == w * (l / 2 - x).
Proof. unfold ss_shear_value. simpl. reflexivity. Qed.

(** In exact arithmetic, for a simply supported beam of span [l > 0] under
    load [w], every bending-moment sample at position [x] is
    [-(w*x/2)*(l-x)] printed with two decimals; the moment is zero at both
    ends and symmetric about midspan, and so is the returned curve; for
    [primarySpan = 4], [load = 10] the sample at [x = 2] is [-20], in exact
    and in double arithmetic. *)
Lemma ss_bending_moment_exact (b : Beam Q) (w : Q) (fuel : nat) :
  0 < primarySpan b -> (101 < fuel)%nat ->
  let l := primarySpan b in
  let M := fun x : Q => - (w * x / 2) * (l - x) in
  (exists res c,
     ss_getBendingMomentEquation fuel b w = Some c /\
     c = curve_of "bendingmoment" res /\
     Forall (fun s => snd s == M (fst s)) res /\
     ydata c = map (fun s => show (Q_toFixed2 (snd s))) (emitted res) /\
     ydata c = rev (ydata c)) /\
  M 0 == 0 /\ M l == 0 /\
  (forall d, M (l / 2 + d) == M (l / 2 - d)) /\
  option_map (fun c => (nth 50 (xdata c) "", nth 50 (ydata c) ""))
    (@ss_getBendingMomentEquation Q _ 102 (beam_of 4 0) 10)
    = Some ("2.00", "-20.00")%string /\
  option_map (fun c => (nth 50 (xdata c) "", nth 50 (ydata c) ""))
    (@ss_getBendingMomentEquation float _ 102 (beam_of 4 0) (ofZ 10))
    = Some ("2.00", "-20.00")%string.
Proof.
  intros Hl Hfuel l M.
  split; [|split; [|split; [|split; [|split]]]].
  - destruct (ss_generators_exact b w fuel Hl Hfuel
                ss_getBendingMomentEquation "bendingmoment"
                (ss_bending_value w l))
      as (res & Hrun & Hval & Hlen & Hnth); [right; left; reflexivity|].
    exists res, (curve_of "bendingmoment" res).
    split; [exact Hrun | split; [reflexivity | split; [|split]]].
    + eapply Forall_impl; [|exact Hval].
      intros [x y] Hy. simpl in *. subst y. apply ss_bending_value_exact.
    + simpl. unfold ys_of, emitted. now rewrite map_rev.
    + simpl. apply (ss_ydata_symmetric (ss_bending_value w l) l res); try assumption.
      intros x y Hxy. apply Q_toFixed2_comp.
      rewrite !ss_bending_value_exact.
      assert (Hy : y == l - x) by lra. rewrite Hy. field.
  - unfold M. field.
  - unfold M. field.
  - intros d. unfold M. field.
  - vm_compute. reflexivity.
  - vm_compute. reflexivity.
Qed.



Section SimplySupportedShear.

Context {num : Type} `{JSNumber num}.

Local Open Scope js_scope.


End SimplySupportedShear.

(** C4, on the doubles the program computes with: for [primarySpan = 4]
    the variable [x] reaches 4.000000000000003 after 100 additions of
    [4/100], the test [x <= 4] fails, and each of the three generators
    returns 100 samples, the last one printed ["3.96"]. *)
Theorem C4_double_span_4_stops_short :
  let b : Beam float := beam_of 4 0 in
  let summary := option_map (fun c => (List.length (xdata c), last (xdata c) "")) in
  summary (ss_getDeflectionEquation 200 b (ofZ 10)) = Some (100%nat, "3.96"%string) /\
  summary (ss_getBendingMomentEquation 200 b (ofZ 10)) = Some (100%nat, "3.96"%string) /\
  summary (ss_getShearForceEquation 200 b (ofZ 10)) = Some (100%nat, "3.96"%string).
Proof.
  repeat split; vm_compute; reflexivity.
Qed.

(** C3, on the doubles the program computes with: for spans 10 and 23 and
    load 1 the two-span bending-moment and deflection curves step back from
    0.33 to the zero-shear point 0.0125, so [xdata] is not non-decreasing. *)
Theorem C3_two_span_xdata_steps_back :
  let b : Beam float := beam_of 10 23 in
  let start := option_map (fun c => firstn 4 (xdata c)) in
  start (ts_getBendingMomentEquation 200 b (ofZ 1))
    = Some ["0.00"; "0.33"; "0.01"; "0.66"]%string /\
  start (ts_getDeflectionEquation 200 b (ofZ 1))
    = Some ["0.00"; "0.33"; "0.01"; "0.66"]%string.
Proof.
  repeat split; vm_compute; reflexivity.
Qed.

(** The same run in exact arithmetic. *)
Lemma two_span_xdata_steps_back_exact :
  option_map (fun c => firstn 4 (xdata c))
    (@ts_getBendingMomentEquation Q _ 200 (beam_of 10 23) 1)
  = Some ["0.00"; "0.33"; "0.01"; "0.66"]%string.
Proof. vm_compute. reflexivity. Qed.

(** * The stepping loops of the two-span generators, exactly *)

Lemma Qabs_leb_spec (x y : Q) : reflect (- y <= x <= y) (Qle_bool (Qabs x) y).
Proof.
  destruct (Qleb_spec (Qabs x) y) as [Hle | Hle]; constructor.
  - now apply Qabs_Qle_condition.
  - intros Hc. apply Hle. now apply Qabs_Qle_condition.
Qed.

Lemma Qabs_ltb_spec (x y : Q) : reflect (- y < x < y) (negb (Qle_bool y (Qabs x))).
Proof.
  destruct (Qltb_spec (Qabs x) y) as [Hlt | Hlt]; constructor.
  - now apply Qabs_Qlt_condition.
  - intros Hc. apply Hlt. now apply Qabs_Qlt_condition.
Qed.


(** ** A common shape for the three loops *)


Lemma deflection_loop_run (Ei j l l1 r1 r2 r3 w : Q) :
  forall fuel i s acc,
    deflection_loop fuel Ei j l l1 r1 r2 r3 w i s acc =
    run (advance l l1 r1 w r3)
        (fun i s => if (i <=? 11)%nat
                    then calculatePoint1 (var_m s) Ei r1 w l1 j
                    else calculatePoint2 (var_m s) r1 r2 l1 w Ei j)
        l fuel i s acc.
Proof.
  induction fuel as [|fuel IH]; intros i s acc; simpl; [reflexivity|].
  destruct (Qle_bool (var_m s) l); [|reflexivity].
  destruct (Qeq_bool (var_m s) l); [reflexivity|]. apply IH.
Qed.

Lemma bending_loop_run (l l1 r1 r2 r3 w : Q) :
  forall fuel i s acc,
    bending_loop fuel l l1 r1 r2 r3 w s acc =
    run (advance l l1 r1 w r3)
        (fun _ s => calculateRoundedValue (var_m s) l l1 r1 w r2)
        l fuel i s acc.
Proof.
  induction fuel as [|fuel IH]; intros i s acc; simpl; [reflexivity|].
  destruct (Qle_bool (var_m s) l); [|reflexivity].
  destruct (Qeq_bool (var_m s) l); [reflexivity|]. apply IH.
Qed.

Lemma shear_loop_run (l l1 r1 r2 w : Q) :
  forall fuel i s acc,
    shear_loop fuel l l1 r1 r2 w s acc =
    run (shear_advance l l1)
        (fun _ s => calculate (var_m s) (var_lk s) (var_m s) r1 r2 w l l1)
        l fuel i s acc.
Proof.
  induction fuel as [|fuel IH]; intros i s acc; simpl; [reflexivity|].
  destruct (Qle_bool (var_m s) l); [|reflexivity].
  destruct (Qeq_bool (var_m s) l); [reflexivity|]. apply IH.
Qed.

Section RunTerminates.

Variable adv : Vars Q -> Vars Q.
Variable val : nat -> Vars Q -> Q.
Variable l : Q.

(** An invariant of the loop head and a variant that every update lowers. *)
Variable Inv : nat -> Vars Q -> Samples Q -> Prop.
Variable mu : Vars Q -> Z.

Hypothesis Inv_bound : forall i s acc, Inv i s acc -> var_m s <= l.
Hypothesis Inv_nonneg : forall i s acc, Inv i s acc -> (0 <= mu s)%Z.
Hypothesis Inv_step :
  forall i s acc, Inv i s acc -> ~ var_m s == l ->
    Inv (S i) (adv s) ((var_m s, val i s) :: acc) /\ (0 <= mu (adv s) < mu s)%Z.

(** The loop ends by its [break], on a position equal to [l]. *)
Lemma run_terminates :
  forall (fuel i : nat) (s : Vars Q) (acc : Samples Q),
    Inv i s acc ->
    (mu s < Z.of_nat fuel)%Z ->
    exists i' s' acc',
      run adv val l fuel i s acc = Some ((var_m s', val i' s') :: acc') /\
      var_m s' == l /\ Inv i' s' acc'.
Proof.
  induction fuel as [|fuel IH]; intros i s acc HI Hmu.
  - pose proof (Inv_nonneg i s acc HI). simpl in Hmu. lia.
  - simpl. pose proof (Inv_bound i s acc HI) as Hle.
    destruct (Qleb_spec (var_m s) l); [|contradiction].
    destruct (Qeqb_spec (var_m s) l) as [Heq | Hne].
    + exists i, s, acc. repeat split; assumption.
    + destruct (Inv_step i s acc HI Hne) as (HI' & Hpos).
      apply IH; [exact HI' | lia].
Qed.

End RunTerminates.

(** ** Steps left to the end of the beam *)

Lemma inject_Z_pred (n : Z) : inject_Z (n - 1) == inject_Z n - 1.
Proof.
  unfold Zminus. rewrite inject_Z_plus, inject_Z_opp. reflexivity.
Qed.

Lemma Qceiling_unique (q : Q) (n : Z) :
  inject_Z n - 1 < q -> q <= inject_Z n -> Qceiling q = n.
Proof.
  intros Hlo Hhi.
  pose proof (Qle_ceiling q) as H1. pose proof (Qceiling_lt q) as H2.
  rewrite inject_Z_pred in H2.
  assert (Ha : inject_Z (Qceiling q) < inject_Z n + 1) by lra.
  assert (Hb : inject_Z n < inject_Z (Qceiling q) + 1) by lra.
  change 1 with (inject_Z 1) in Ha, Hb.
  rewrite <- inject_Z_plus in Ha, Hb.
  rewrite <- Zlt_Qlt in Ha, Hb. lia.
Qed.


Section StepsLeft.

Variable l : Q.
Hypothesis l_pos : 0 < l.

Lemma steps_left_spec (x : Q) :
  (inject_Z (steps_left l x) - 1) * (l / 100) < l - x /\
  l - x <= inject_Z (steps_left l x) * (l / 100).
Proof.
  unfold steps_left.
  pose proof (Qle_ceiling ((l - x) / (l / 100))) as H1.
  pose proof (Qceiling_lt ((l - x) / (l / 100))) as H2.
  rewrite inject_Z_pred in H2.
  pose proof (hundredth l) as Hd.
  set (d := l / 100) in *. assert (Hdpos : 0 < d) by lra.
  set (c := inject_Z (Qceiling ((l - x) / d))) in *.
  assert (Hq : (l - x) / d * d == l - x) by (field; lra).
  split.
  - rewrite <- Hq. apply Qmult_lt_compat_r; [exact Hdpos | lra].
  - rewrite <- Hq. apply Qmult_le_compat_r; [exact H1 | lra].
Qed.

Lemma steps_left_unique (x : Q) (n : Z) :
  (inject_Z n - 1) * (l / 100) < l - x ->
  l - x <= inject_Z n * (l / 100) ->
  steps_left l x = n.
Proof.
  intros Hlo Hhi. unfold steps_left. apply Qceiling_unique.
  - pose proof (hundredth l) as Hd. set (d := l / 100) in *.
    assert (Hdpos : 0 < d) by lra.
    apply Qlt_shift_div_l; [exact Hdpos | exact Hlo].
  - pose proof (hundredth l) as Hd. set (d := l / 100) in *.
    assert (Hdpos : 0 < d) by lra.
    apply Qle_shift_div_r; [exact Hdpos | exact Hhi].
Qed.

Lemma steps_left_comp (x y : Q) : x == y -> steps_left l x = steps_left l y.
Proof. intros Hxy. unfold steps_left. apply Qceiling_comp. now rewrite Hxy. Qed.

Lemma steps_left_step (x y : Q) :
  y == x + l / 100 -> steps_left l y = (steps_left l x - 1)%Z.
Proof.
  intros Hy. destruct (steps_left_spec x) as (Hlo & Hhi).
  apply steps_left_unique.
  - rewrite inject_Z_pred.
    set (d := l / 100) in *. set (c := inject_Z (steps_left l x)) in *.
    rewrite Hy. lra.
  - rewrite inject_Z_pred.
    set (d := l / 100) in *. set (c := inject_Z (steps_left l x)) in *.
    rewrite Hy. lra.
Qed.

Lemma steps_left_mono (x y : Q) :
  x <= y -> (steps_left l y <= steps_left l x)%Z.
Proof.
  intros Hxy. unfold steps_left. apply Qceiling_resp_le.
  pose proof (hundredth l) as Hd. set (d := l / 100) in *.
  assert (Hdpos : 0 < d) by lra.
  apply Qle_shift_div_l; [exact Hdpos|].
  assert (Hq : (l - y) / d * d == l - y) by (field; lra).
  rewrite Hq. lra.
Qed.

Lemma steps_left_end (x : Q) : x == l -> steps_left l x = 0%Z.
Proof.
  intros Hx. apply steps_left_unique.
  - change (inject_Z 0) with 0. pose proof (hundredth l) as Hd.
    set (d := l / 100) in *. rewrite Hx. lra.
  - change (inject_Z 0) with 0. rewrite Hx. lra.
Qed.

Lemma steps_left_pos (x : Q) : x < l -> (1 <= steps_left l x)%Z.
Proof.
  intros Hx. destruct (steps_left_spec x) as (_ & Hhi).
  pose proof (hundredth l) as Hd. set (d := l / 100) in *.
  assert (Hdpos : 0 < d) by lra.
  assert (Hc : 0 < inject_Z (steps_left l x)).
  { set (c := inject_Z (steps_left l x)) in *.
    destruct (Qlt_le_dec 0 c) as [|Hn]; [assumption|].
    exfalso. assert (c * d <= 0) by nra. lra. }
  change 0 with (inject_Z 0) in Hc. rewrite <- Zlt_Qlt in Hc. lia.
Qed.

Lemma steps_left_nonneg (x : Q) : x <= l -> (0 <= steps_left l x)%Z.
Proof.
  intros Hx. destruct (Qeqb_spec x l) as [Heq | Hne].
  - rewrite (steps_left_end x Heq). lia.
  - assert (Hlt : x < l) by lra. pose proof (steps_left_pos x Hlt). lia.
Qed.

Lemma steps_left_initial : steps_left l (var_m (@initial_vars Q _)) = 100%Z.
Proof.
  pose proof (hundredth l) as Hd.
  apply steps_left_unique; simpl; change (inject_Z 0) with 0;
    change (inject_Z 100) with 100; set (d := l / 100) in *; lra.
Qed.

End StepsLeft.

(** ** The shear-force loop *)

Section ShearStepping.

Variables l l1 : Q.
Hypothesis l1_pos : 0 < l1.
Hypothesis l1_lt_l : l1 < l.

Local Abbreviation dl := (l / 100).


Lemma shear_advance_spec (s : Vars Q) : shear_step l l1 s (shear_advance l l1 s).
Proof.
  unfold shear_advance, shear_calculateValue, set_m, set_lk. q_ops.
  destruct (Qeqb_spec (var_m s) 0) as [H0 | H0].
  { q_simpl. now apply shear_start. }
  destruct (Qabs_leb_spec (var_m s - l1) dl) as [H2a | H2a];
    destruct (Qltb_spec (var_m s - l1) 0) as [H2b | H2b]; q_simpl;
    try (now apply shear_snap).
  all: destruct (Qeqb_spec (var_m s - l1) 0) as [H3a | H3a];
    destruct (Qabs_leb_spec (var_lk s - l1) dl) as [H3b | H3b];
    destruct (Qeqb_spec (var_lk s) (var_m s)) as [H3c | H3c]; q_simpl;
    try (now apply shear_again).
  all: destruct (Qabs_ltb_spec (var_m s - l) dl) as [H4 | H4]; q_simpl;
    [ apply shear_end | apply shear_next ]; try assumption; tauto.
Qed.


Lemma shear_mu_bounds (s : Vars Q) :
  (3 * steps_left l (var_m s) <= shear_mu l l1 s <= 3 * steps_left l (var_m s) + 2)%Z.
Proof.
  unfold shear_mu.
  destruct (Qeq_bool (var_m s) l1); [destruct (Qeq_bool (var_lk s) l1)|]; lia.
Qed.

Lemma l_pos_shear : 0 < l.
Proof. lra. Qed.

Lemma shear_step_decreases (s : Vars Q) :
  var_m s <= l -> ~ var_m s == l ->
  var_m (shear_advance l l1 s) <= l /\
  (0 <= shear_mu l l1 (shear_advance l l1 s) < shear_mu l l1 s)%Z.
Proof.
  intros Hle Hne.
  pose proof l_pos_shear as Hl.
  pose proof (hundredth l) as Hd.
  assert (Hdl : 0 < dl) by lra.
  assert (Hnn : forall s', var_m s' <= l -> (0 <= shear_mu l l1 s')%Z).
  { intros s' Hs'. pose proof (shear_mu_bounds s').
    pose proof (steps_left_nonneg l Hl (var_m s') Hs'). lia. }
  assert (Hlt : var_m s < l) by lra.
  pose proof (steps_left_pos l Hl (var_m s) Hlt) as Hpos.
  destruct (shear_advance_spec s) as [H0 | H0 H2 H2' | H0 H3 H3' H3'' | H0 H2 H3 H4 | H0 H2 H3 H4].
  - (* from the left end *)
    assert (Hb : var_m s + dl <= l) by lra.
    split; [exact Hb|]. split; [now apply Hnn|].
    pose proof (shear_mu_bounds {| var_m := var_m s + dl;
                 var_lk := var_m s + dl - (var_m s + dl + dl) |}) as Hup.
    q_simpl_in Hup.
    rewrite (steps_left_step l Hl (var_m s) (var_m s + dl)) in Hup by reflexivity.
    unfold shear_mu at 2.
    destruct (Qeqb_spec (var_m s) l1); [exfalso; lra | lia].
  - (* snapping to the support *)
    split; [q_simpl; lra|]. split; [apply Hnn; q_simpl; lra|].
    unfold shear_mu. q_simpl.
    destruct (Qeqb_spec l1 l1) as [_ | Hc]; [|exfalso; apply Hc; reflexivity].
    destruct (Qeqb_spec (var_m s) l1) as [Hc | _]; [exfalso; lra|].
    pose proof (steps_left_mono l Hl (var_m s) l1).
    assert (Hm : (steps_left l l1 <= steps_left l (var_m s))%Z) by (apply H; lra).
    lia.
  - (* the second sample at the support *)
    split; [q_simpl; lra|]. split; [apply Hnn; q_simpl; lra|].
    unfold shear_mu. q_simpl.
    destruct (Qeqb_spec l1 l1) as [_ | Hc]; [|exfalso; apply Hc; reflexivity].
    destruct (Qeqb_spec (var_m s) l1) as [Hm | Hm]; [|exfalso; apply Hm; lra].
    destruct (Qeqb_spec (var_lk s) l1) as [Hk | Hk]; [exfalso; apply H3''; lra|].
    rewrite (steps_left_comp l (var_m s) l1 Hm). lia.
  - (* snapping to the right end *)
    split; [q_simpl; lra|]. split; [apply Hnn; q_simpl; lra|].
    unfold shear_mu at 1. q_simpl.
    destruct (Qeqb_spec l l1) as [Hc | _]; [exfalso; lra|].
    rewrite (steps_left_end l Hl l) by reflexivity.
    pose proof (shear_mu_bounds s). lia.
  - (* a nominal step *)
    assert (Hb : var_m s + dl <= l).
    { destruct (Qlt_le_dec (l - dl) (var_m s)); [exfalso; apply H4; lra | lra]. }
    split; [exact Hb|]. split; [now apply Hnn|].
    pose proof (shear_mu_bounds {| var_m := var_m s + dl;
                 var_lk := var_m s + dl - (var_lk s + dl) |}) as Hup.
    q_simpl_in Hup.
    rewrite (steps_left_step l Hl (var_m s) (var_m s + dl)) in Hup by reflexivity.
    unfold shear_mu at 2.
    destruct (Qeqb_spec (var_m s) l1) as [Hm | Hm]; [|lia].
    destruct (Qeqb_spec (var_lk s) l1) as [Hk | Hk]; [|].
    + (* m = l1 and mn = l1: the nominal step leaves the support *)
      unfold shear_mu. q_simpl.
      destruct (Qeqb_spec (var_m s + dl) l1) as [Hc | _]; [exfalso; lra|].
      rewrite (steps_left_step l Hl (var_m s) (var_m s + dl)) by reflexivity. lia.
    + lia.
Qed.

End ShearStepping.

Section ShearCurve.

Variables l l1 r1 r2 w : Q.
Hypothesis l1_pos : 0 < l1.
Hypothesis l1_lt_l : l1 < l.

Local Abbreviation val := (shear_value l l1 r1 r2 w).

(** The shear loop ends on the position [l], whatever the spans. *)
Lemma shear_loop_terminates (fuel : nat) :
  (302 < fuel)%nat ->
  exists x y rest,
    shear_loop fuel l l1 r1 r2 w initial_vars [] = Some ((x, y) :: rest) /\
    x == l.
Proof.
  intros Hfuel. rewrite (shear_loop_run l l1 r1 r2 w fuel 0).
  pose proof (l_pos_shear l l1 l1_pos l1_lt_l) as Hl.
  destruct (run_terminates (shear_advance l l1) val l
              (fun _ s _ => var_m s <= l) (shear_mu l l1))
    with (fuel := fuel) (i := 0%nat) (s := @initial_vars Q _) (acc := @nil (Q * Q))
    as (i' & s' & acc' & Hrun & Hend & _).
  - intros _ s _ Hs. exact Hs.
  - intros _ s _ Hs. pose proof (shear_mu_bounds l l1 s).
    pose proof (steps_left_nonneg l Hl (var_m s) Hs). lia.
  - intros _ s _ Hs Hne.
    apply (shear_step_decreases l l1 l1_pos l1_lt_l s Hs Hne).
  - simpl. change (inject_Z 0) with 0. lra.
  - pose proof (shear_mu_bounds l l1 (@initial_vars Q _)) as Hb.
    pose proof (steps_left_initial l Hl). lia.
  - exists (var_m s'), (val i' s'), acc'. split; [exact Hrun | exact Hend].
Qed.

Lemma calculate_left (x lk : Q) :
  x == l1 -> lk < l1 ->
  calculate x lk x r1 r2 w l l1 == r1 - w * l1.
Proof.
  intros Hx Hlk. unfold calculate. q_ops.
  destruct (Qeqb_spec x 0); [exfalso; lra|].
  destruct (Qeqb_spec x l); [exfalso; lra|].
  destruct (Qeqb_spec x l1); [|exfalso; lra].
  destruct (Qltb_spec (lk - l1) 0); [|exfalso; lra].
  q_simpl. reflexivity.
Qed.

Lemma calculate_right (x lk : Q) :
  x == l1 -> lk == l1 ->
  calculate x lk x r1 r2 w l l1 == r1 + r2 - w * l1.
Proof.
  intros Hx Hlk. unfold calculate. q_ops.
  destruct (Qeqb_spec x 0); [exfalso; lra|].
  destruct (Qeqb_spec x l); [exfalso; lra|].
  destruct (Qeqb_spec x l1); [|exfalso; lra].
  destruct (Qltb_spec (lk - l1) 0); [exfalso; lra|].
  destruct (Qltb_spec 0 (x - l1)); [exfalso; lra|].
  destruct (Qltb_spec x l1); [exfalso; lra|].
  q_simpl. rewrite Hx. reflexivity.
Qed.


Hypothesis step_lt_l1 : l / 100 < l1.

Lemma shear_phase_step (i : nat) (s : Vars Q) (acc : Samples Q) :
  shear_phase l l1 r1 r2 w s acc -> ~ var_m s == l ->
  shear_phase l l1 r1 r2 w (shear_advance l l1 s) ((var_m s, val i s) :: acc).
Proof.
  intros Hph Hne.
  pose proof (hundredth l) as Hd.
  destruct Hph as [(Hm & Hacc) | [(Hm & Hk & Hk' & Hacc) |
                  [(Hm & Hk & p1 & pre & -> & Hp1 & Hv1 & Hpre) |
                   (Hm & Hle & post & p2 & p1 & pre & -> & Hpost & Hpair & Hpre)]]].
  - (* before the support *)
    assert (Hacc' : left_of_support l1 ((var_m s, val i s) :: acc))
      by (constructor; [exact Hm | exact Hacc]).
    destruct (shear_advance_spec l l1 s)
      as [H0 | H0 H2 H2' | H0 H3 H3' H3'' | H0 H2 H3 H4 | H0 H2 H3 H4];
      set (dl := l / 100) in *.
    + left. q_simpl. split; [lra | exact Hacc'].
    + right; left. q_simpl. change (l / 100) with dl.
      repeat split; try lra. exact Hacc'.
    + exfalso. lra.
    + exfalso. destruct (Qlt_le_dec (var_m s - l1) (- dl)); [lra|].
      apply H2. lra.
    + left. q_simpl. split; [|exact Hacc'].
      destruct (Qlt_le_dec (var_m s - l1) (- dl)); [lra|].
      exfalso. apply H2. lra.
  - (* first sample at the support *)
    destruct (shear_advance_spec l l1 s)
      as [H0 | H0 H2 H2' | H0 H3 H3' H3'' | H0 H2 H3 H4 | H0 H2 H3 H4];
      set (dl := l / 100) in *; try (exfalso; lra).
    + right; right; left. q_simpl. split; [reflexivity | split; [exact Hm|]].
      exists (var_m s, val i s), acc. split; [reflexivity|].
      q_simpl. split; [exact Hm | split; [|exact Hacc]].
      unfold shear_value. now apply calculate_left.
  - (* second sample at the support *)
    assert (Hpair : support_pair l1 r1 r2 w p1 (var_m s, val i s)).
    { repeat split; try assumption. q_simpl. unfold shear_value.
      now apply calculate_right. }
    destruct (shear_advance_spec l l1 s)
      as [H0 | H0 H2 H2' | H0 H3 H3' H3'' | H0 H2 H3 H4 | H0 H2 H3 H4];
      set (dl := l / 100) in *; try (exfalso; lra).
    + right; right; right. q_simpl. split; [lra | split; [lra|]].
      exists [], (var_m s, val i s), p1, pre.
      split; [reflexivity | split; [constructor | split; assumption]].
    + right; right; right. q_simpl.
      assert (Hb : var_m s + dl <= l).
      { destruct (Qlt_le_dec (l - dl) (var_m s)); [exfalso; apply H4; lra | lra]. }
      split; [lra | split; [exact Hb|]].
      exists [], (var_m s, val i s), p1, pre.
      split; [reflexivity | split; [constructor | split; assumption]].
  - (* after the support *)
    assert (Hpost' : right_of_support l1 ((var_m s, val i s) :: post))
      by (constructor; [exact Hm | exact Hpost]).
    destruct (shear_advance_spec l l1 s)
      as [H0 | H0 H2 H2' | H0 H3 H3' H3'' | H0 H2 H3 H4 | H0 H2 H3 H4];
      set (dl := l / 100) in *; try (exfalso; lra).
    + right; right; right. q_simpl. split; [lra | split; [lra|]].
      exists ((var_m s, val i s) :: post), p2, p1, pre.
      split; [reflexivity | split; [exact Hpost' | split; assumption]].
    + right; right; right. q_simpl.
      assert (Hb : var_m s + dl <= l).
      { destruct (Qlt_le_dec (l - dl) (var_m s)); [exfalso; apply H4; lra | lra]. }
      split; [lra | split; [exact Hb|]].
      exists ((var_m s, val i s) :: post), p2, p1, pre.
      split; [reflexivity | split; [exact Hpost' | split; assumption]].
Qed.

Lemma shear_phase_bound (s : Vars Q) (acc : Samples Q) :
  shear_phase l l1 r1 r2 w s acc -> var_m s <= l.
Proof.
  intros [(Hm & _) | [(Hm & _) | [(Hm & _) | (_ & Hle & _)]]]; lra.
Qed.

(** With the support more than one nominal step from the left end, the
    samples are: positions left of the support, the support twice, with the
    left-limit value and then the right-limit value, positions right of the
    support, the last of them [l]. *)
Lemma shear_loop_support_pair (fuel : nat) :
  (302 < fuel)%nat ->
  exists res pre p1 p2 post,
    shear_loop fuel l l1 r1 r2 w initial_vars [] = Some res /\
    emitted res = pre ++ p1 :: p2 :: post /\
    left_of_support l1 pre /\ support_pair l1 r1 r2 w p1 p2 /\ right_of_support l1 post /\
    exists y, last post (0, 0) = (fst (last post (0, 0)), y) /\
              fst (last (emitted res) (0, 0)) == l.
Proof.
  intros Hfuel. rewrite (shear_loop_run l l1 r1 r2 w fuel 0).
  pose proof (l_pos_shear l l1 l1_pos l1_lt_l) as Hl.
  destruct (run_terminates (shear_advance l l1) val l
              (fun _ s acc => shear_phase l l1 r1 r2 w s acc) (shear_mu l l1))
    with (fuel := fuel) (i := 0%nat) (s := @initial_vars Q _) (acc := @nil (Q * Q))
    as (i' & s' & acc' & Hrun & Hend & Hph).
  - intros _ s acc Hs. now apply shear_phase_bound in Hs.
  - intros _ s acc Hs. apply shear_phase_bound in Hs.
    pose proof (shear_mu_bounds l l1 s).
    pose proof (steps_left_nonneg l Hl (var_m s) Hs). lia.
  - intros i s acc Hs Hne. split.
    + now apply shear_phase_step.
    + apply (shear_step_decreases l l1 l1_pos l1_lt_l s); [|exact Hne].
      now apply shear_phase_bound in Hs.
  - left. split; [simpl; change (inject_Z 0) with 0; lra | constructor].
  - pose proof (shear_mu_bounds l l1 (@initial_vars Q _)) as Hb.
    pose proof (steps_left_initial l Hl). lia.
  - destruct Hph as [(Hm & _) | [(Hm & _) | [(Hm & _) |
        (Hm & Hle & post & p2 & p1 & pre & -> & Hpost & Hpair & Hpre)]]];
      try (exfalso; lra).
    exists ((var_m s', val i' s') :: post ++ p2 :: p1 :: pre),
           (rev pre), p1, p2, (rev post ++ [(var_m s', val i' s')]).
    split; [exact Hrun|].
    assert (Hem : emitted ((var_m s', val i' s') :: post ++ p2 :: p1 :: pre)
                  = rev pre ++ p1 :: p2 :: rev post ++ [(var_m s', val i' s')]).
    { unfold emitted. simpl. rewrite rev_app_distr. simpl.
      rewrite <- !app_assoc. reflexivity. }
    split; [exact Hem|].
    split; [now apply Forall_rev|].
    split; [exact Hpair|].
    split.
    { apply Forall_app. split; [now apply Forall_rev|].
      constructor; [simpl; lra | constructor]. }
    exists (val i' s'). rewrite Hem.
    rewrite last_last. split; [reflexivity|].
    replace (rev pre ++ p1 :: p2 :: rev post ++ [(var_m s', val i' s')])
      with ((rev pre ++ p1 :: p2 :: rev post) ++ [(var_m s', val i' s')])
      by (rewrite <- app_assoc; reflexivity).
    rewrite last_last. exact Hend.
Qed.

End ShearCurve.

(** ** The two-span shear curve: the claim *)

(** C2, on the doubles the program computes with.  For spans 9 and 21 and
    load 1 the support lies 30 nominal steps from the left end, and the
    shear curve holds one sample at it, not two: the positions around it
    are printed ["8.70"], ["9.00"], ["9.30"] with the values ["-8.82"],
    ["-9.13"], ["12.18"]; the only sample at [l1] carries the left limit
    [r1 - w*l1], and no sample carries the right limit [(r1 + r2) - w*l1].
    For spans 1 and 100 the first nominal step, 1.01, passes the support,
    which is not sampled.  For spans 1 and 1 the support is sampled twice,
    the two values being printed ["-0.63"] and ["0.63"]. *)
Theorem C2_double_support_sampled_once :
  let shear (b : Beam float) := ts_getShearForceEquation 400 b (ofZ 1) in
  let samples (b : Beam float) := ts_shear_samples 400 b (ofZ 1) in
  let at_support (b : Beam float) (p : float * float) := (fst p === primarySpan b)%js in
  let window (from : nat) (c : Curve) :=
    (firstn 3 (skipn from (xdata c)), firstn 3 (skipn from (ydata c))) in
  let r1 : float := reaction1 (ofZ 1) (ofZ 9) (ofZ 21) in
  let r2 : float := reaction2 (ofZ 1) (ofZ 9) (ofZ 21) in
  (((ofZ 9 + ofZ 21) / ofZ 100 <? (ofZ 9 : float))%js = true /\
   option_map (window 29%nat) (shear (beam_of 9 21))
   = Some (["8.70"; "9.00"; "9.30"], ["-8.82"; "-9.13"; "12.18"])%string /\
   option_map (fun r => map snd (filter (at_support (beam_of 9 21)) r))
     (samples (beam_of 9 21))
   = Some [(r1 - ofZ 1 * ofZ 9)%js] /\
   option_map (existsb (fun p => (snd p === (r1 + r2) - ofZ 1 * ofZ 9)%js))
     (samples (beam_of 9 21))
   = Some false) /\
  (option_map (fun c => firstn 3 (xdata c)) (shear (beam_of 1 100))
   = Some ["0.00"; "1.01"; "2.02"]%string /\
   option_map (existsb (at_support (beam_of 1 100))) (samples (beam_of 1 100))
   = Some false) /\
  option_map (window 49%nat) (shear (beam_of 1 1))
  = Some (["0.98"; "1.00"; "1.00"], ["-0.61"; "-0.63"; "0.63"])%string.
Proof.
  repeat split; vm_compute; reflexivity.
Qed.

(** In exact arithmetic, for spans [l1 > 0], [l2 > 0] with the support more
    than one nominal step [(l1+l2)/100] from the left end, the positions
    sampled by the shear generator are: positions left of [l1], then [l1]
    twice in a row, then positions right of [l1]; the values computed at the
    two samples at [l1] are the left limit [r1 - w*l1] and then the right
    limit [r1 + r2 - w*l1], which differ by exactly [r2]; the returned
    arrays hold these positions and values printed with two decimals. *)
Lemma shear_support_pair_exact (b : Beam Q) (w : Q) (fuel : nat) :
  0 < primarySpan b -> 0 < secondarySpan b ->
  (primarySpan b + secondarySpan b) / 100 < primarySpan b ->
  (302 < fuel)%nat ->
  let l1 := primarySpan b in
  let l2 := secondarySpan b in
  let r1 := reaction1 w l1 l2 in
  let r2 := reaction2 w l1 l2 in
  exists res pre x1 y1 x2 y2 post c,
    ts_shear_samples fuel b w = Some res /\
    emitted res = pre ++ (x1, y1) :: (x2, y2) :: post /\
    Forall (fun p => fst p < l1) pre /\
    x1 == l1 /\ y1 == r1 - w * l1 /\
    x2 == l1 /\ y2 == r1 + r2 - w * l1 /\
    y2 - y1 == r2 /\
    Forall (fun p => l1 < fst p) post /\
    ts_getShearForceEquation fuel b w = Some c /\
    xdata c = map (fun p => show (Q_toFixed2 (fst p))) (emitted res) /\
    ydata c = map (fun p => show (Q_toFixed2 (snd p))) (emitted res).
Proof.
  intros H1 H2 Hstep Hfuel l1 l2 r1 r2.
  assert (Hl : l1 < l1 + l2) by (unfold l1, l2; lra).
  destruct (shear_loop_support_pair (l1 + l2) l1 r1 r2 w H1 Hl Hstep fuel Hfuel)
    as (res & pre & [x1 y1] & [x2 y2] & post & Hrun & Hem & Hpre & Hpair & Hpost & _).
  destruct Hpair as (Hx1 & Hy1 & Hx2 & Hy2). simpl in Hx1, Hy1, Hx2, Hy2.
  assert (Hsamples : ts_shear_samples fuel b w = Some res) by exact Hrun.
  exists res, pre, x1, y1, x2, y2, post, (curve_of "shearforce" res).
  repeat split; try assumption.
  - rewrite Hy1, Hy2. ring.
  - unfold ts_getShearForceEquation. now rewrite Hsamples.
  - simpl. unfold xs_of, emitted. now rewrite map_rev.
  - simpl. unfold ys_of, emitted. now rewrite map_rev.
Qed.

(** ** The two-span bending-moment values: the claim *)

(** In exact arithmetic, [calculateRoundedValue] by the position of [x]:
    the branch formula of the span, rounded to two decimals and negated. *)
Lemma calculateRoundedValue_exact (x l l1 r1 w r2 : Q) :
  0 < l1 -> l1 < l ->
  ((x == 0 \/ x == l) -> calculateRoundedValue x l l1 r1 w r2 == 0) /\
  (0 < x < l1 ->
   calculateRoundedValue x l l1 r1 w r2 == - round2 (r1 * x - w * x ^ 2 / 2)) /\
  (l1 < x < l ->
   calculateRoundedValue x l l1 r1 w r2
   == - round2 (r1 * x + r2 * (x - l1) - w * x ^ 2 / 2)) /\
  (x == l1 ->
   calculateRoundedValue x l l1 r1 w r2 == - round2 (r1 * l1 - w * l1 ^ 2 / 2)).
Proof.
  intros H1 H2. unfold calculateRoundedValue, half, pow2. q_ops.
  change (inject_Z 1 / inject_Z 2) with (1 / 2).
  fold (round2 (r1 * x - 1 / 2 * w * (x * x))).
  fold (round2 (r1 * x + r2 * (x - l1) - 1 / 2 * w * (x * x))).
  fold (round2 (r1 * l1 - 1 / 2 * w * (l1 * l1))).
  destruct (Qeqb_spec x 0) as [E0 | E0]; destruct (Qeqb_spec x l) as [El | El];
    q_simpl; repeat split; intros Hx; try reflexivity;
    try (exfalso; lra); try (exfalso; destruct Hx; lra).
  all: destruct (Qltb_spec x l1) as [Elt | Elt];
    try destruct (Qltb_spec l1 x) as [Egt | Egt]; try (exfalso; lra).
  all: apply Qopp_comp;
    match goal with
    | |- round2 ?A == round2 ?B =>
        rewrite (round2_comp A B); [reflexivity | try rewrite Hx; field]
    end.
Qed.

(** C5, as stated, fails on the doubles the program computes with: for
    spans 1 and 1 and load 1 the second sample, at [x = 0.02] inside the
    first span, carries [-0.01], the number read back from a two-decimal
    string, and not [-(r1*x - w*x^2/2)], which is [-0.0073]. *)
Lemma C5_counterexample :
  exists (res : Samples float) (x y : float),
    ts_bending_samples 400 (beam_of 1 1) (ofZ 1) = Some res /\
    nth_error (emitted res) 1 = Some (x, y) /\
    ((ofZ 0 <? x) && (x <? ofZ 1))%js = true /\
    (y === - ofFixed (toFixed2 (ofZ 1 / ofZ 100)))%js = true /\
    (y === - (reaction1 (ofZ 1) (ofZ 1) (ofZ 1) * x - ofZ 1 * (x * x) / ofZ 2))%js = false.
Proof.
  pose (o := @ts_bending_samples float _ 400 (beam_of 1 1) (ofZ 1)).
  pose (res := match o with Some r => r | None => [] end).
  pose (p := nth 1 (emitted res) (ofZ 0, ofZ 0)).
  exists res, (fst p), (snd p).
  repeat split; vm_compute; reflexivity.
Qed.

Section TwoSpanBendingValues.

Context {num : Type} `{JSNumber num}.

Local Open Scope js_scope.

(** C5, amended.  In every arithmetic, the value the two-span
    bending-moment generator pairs with a sampled position [x] is: 0 when
    [x === 0] or [x === l]; else, with [rounded e] the negated number read
    back from [e.toFixed(2)], it is [rounded (r1*x - 0.5*w*x^2)] when
    [x < l1], [rounded ((r1*x + r2*(x - l1)) - 0.5*w*x^2)] when [x > l1], and
    [rounded (r1*l1 - 0.5*w*l1^2)] otherwise; the first sample lies at 0
    when [0 <= l]; the returned [ydata] holds these values printed with two
    decimals.  Read in exact arithmetic, the three expressions are the
    formulas [r1*x - w*x^2/2], [r1*x + r2*(x - l1) - w*x^2/2] and
    [r1*l1 - w*l1^2/2], the second agrees with the third at [x = l1], and
    reading back [e.toFixed(2)] moves [e] by at most 1/200. *)
Theorem C5_bending_moment_values (fuel : nat) (b : Beam num) (w : num)
    (res : Samples num) :
  ts_bending_samples fuel b w = Some res ->
  let l1 := primarySpan b in
  let l2 := secondarySpan b in
  let l := l1 + l2 in
  let r1 := reaction1 w l1 l2 in
  let r2 := reaction2 w l1 l2 in
  let rounded (e : num) := - ofFixed (toFixed2 e) in
  (forall x y, In (x, y) res ->
     y = if (x === ofZ 0) || (x === l) then ofZ 0
         else if x <? l1 then rounded (r1 * x - half * w * pow2 x)
         else if l1 <? x then rounded ((r1 * x + r2 * (x - l1)) - half * w * pow2 x)
         else rounded (r1 * l1 - half * w * pow2 l1)) /\
  ((ofZ 0 <=? l) = true -> exists y rest, emitted res = (ofZ 0, y) :: rest) /\
  ts_getBendingMomentEquation fuel b w = Some (curve_of "bendingmoment" res) /\
  ydata (curve_of "bendingmoment" res)
  = map (fun p => show (toFixed2 (snd p))) (emitted res) /\
  (forall r1 r2 w l1 x e : Q,
     r1 * x - half * w * pow2 x == r1 * x - w * x ^ 2 / 2 /\
     (r1 * x + r2 * (x - l1)) - half * w * pow2 x
     == r1 * x + r2 * (x - l1) - w * x ^ 2 / 2 /\
     r1 * l1 + r2 * (l1 - l1) - w * l1 ^ 2 / 2 == r1 * l1 - w * l1 ^ 2 / 2 /\
     Qabs (ofFixed (toFixed2 e) - e) <= 1 # 200)%Q.
Proof.
  intros Hrun l1 l2 l r1 r2 rounded.
  split; [|split; [|split; [|split]]].
  - intros x y Hin.
    assert (Hval : Forall (fun p => snd p = calculateRoundedValue (fst p) l l1 r1 w r2) res).
    { eapply bending_loop_values; [exact Hrun | constructor]. }
    rewrite Forall_forall in Hval. exact (Hval (x, y) Hin).
  - intros Hg. apply bending_loop_first in Hrun; [|exact Hg].
    destruct Hrun as (rest & Hrest). eexists. exists rest. exact Hrest.
  - unfold ts_getBendingMomentEquation. now rewrite Hrun.
  - simpl. unfold ys_of, emitted. now rewrite map_rev.
  - intros q1 q2 qw ql1 x e. unfold half, pow2. q_ops.
    change (inject_Z 1 / inject_Z 2)%Q with (1 / 2)%Q.
    split; [field | split; [field | split; [field|]]].
    apply round2_error.
Qed.

End TwoSpanBendingValues.

(** On the doubles, for spans 5 and 5: under the load 1 the sample of index
    2 is printed ["0.20"], ["-0.35"]; under the load 0 the generator returns
    103 samples, every ordinate printed ["0.00"]. *)
Lemma C5_witness :
  let b : Beam float := beam_of 5 5 in
  let run (w : float) := ts_bending_samples 400 b w in
  let res (w : float) := match run w with Some r => r | None => [] end in
  let c (w : float) := curve_of "bendingmoment" (res w) in
  (run (ofZ 1) = Some (res (ofZ 1)) /\
   ts_getBendingMomentEquation 400 b (ofZ 1) = Some (c (ofZ 1)) /\
   (nth 2 (xdata (c (ofZ 1))) "", nth 2 (ydata (c (ofZ 1))) "")
   = ("0.20", "-0.35")%string) /\
  (run (ofZ 0) = Some (res (ofZ 0)) /\
   ts_getBendingMomentEquation 400 b (ofZ 0) = Some (c (ofZ 0)) /\
   List.length (xdata (c (ofZ 0))) = 103%nat /\
   forallb (String.eqb "0.00") (ydata (c (ofZ 0))) = true).
Proof.
  intros b run res c.
  assert (H1 : run (ofZ 1) = Some (res (ofZ 1))) by (vm_compute; reflexivity).
  assert (H0 : run (ofZ 0) = Some (res (ofZ 0))) by (vm_compute; reflexivity).
  split.
  - split; [exact H1|].
    split; [|vm_compute; reflexivity].
    exact (proj1 (proj2 (proj2 (C5_bending_moment_values 400 b (ofZ 1) _ H1)))).
  - split; [exact H0|].
    split; [|split; vm_compute; reflexivity].
    exact (proj1 (proj2 (proj2 (C5_bending_moment_values 400 b (ofZ 0) _ H0)))).
Defined.
(** ** The branch switch of the two-span deflection *)

(** C8. In the two-span deflection generator the closed form is chosen by
    the index of the sample, not by its position: the samples of index 0 to
    11 carry formula 1 ([calculatePoint1]) and every later sample carries
    formula 2 ([calculatePoint2]), wherever the position lies with respect
    to [l1]. *)
Theorem C8_deflection_formula_by_index {num : Type} `{JSNumber num}
    (fuel : nat) (b : Beam num) (w : num) (res : Samples num) :
  ts_deflection_samples fuel b w = Some res ->
  let l1 := primarySpan b in
  let l2 := secondarySpan b in
  let Ei := EI (properties (material b)) in
  let r1 := reaction1 w l1 l2 in
  let r2 := reaction2 w l1 l2 in
  (forall (k : nat) (x y : num),
     nth_error (emitted res) k = Some (x, y) ->
     y = if (k <=? 11)%nat
         then calculatePoint1 x Ei r1 w l1 (j2 b)
         else calculatePoint2 x r1 r2 l1 w Ei (j2 b)) /\
  ts_getDeflectionEquation fuel b w = Some (curve_of "deflection" res).
Proof.
  intros Hrun l1 l2 Ei r1 r2. split.
  - unfold ts_deflection_samples in Hrun.
    apply deflection_loop_formula in Hrun.
    destruct Hrun as (new & -> & Hnew).
    rewrite app_nil_r. exact Hnew.
  - unfold ts_getDeflectionEquation. now rewrite Hrun.
Qed.

(** On the doubles, for spans 5 and 5 and load 1: the sample of index 12
    lies at 1.2, inside the first span, and carries formula 2, whose value
    there differs from that of formula 1. *)
Lemma C8_witness :
  let b : Beam float := beam_of 5 5 in
  let w : float := ofZ 1 in
  let o := ts_deflection_samples 400 b w in
  let res := match o with Some r => r | None => [] end in
  let p := nth 12 (emitted res) (ofZ 0, ofZ 0) in
  let Ei := EI (properties (material b)) in
  let r1 := reaction1 w (ofZ 5) (ofZ 5) in
  let r2 := reaction2 w (ofZ 5) (ofZ 5) in
  o = Some res /\
  nth_error (emitted res) 12 = Some p /\
  PrimFloat.ltb (fst p) (primarySpan b) = true /\
  snd p = calculatePoint2 (fst p) r1 r2 (ofZ 5) w Ei (j2 b) /\
  PrimFloat.eqb (snd p) (calculatePoint1 (fst p) Ei r1 w (ofZ 5) (j2 b)) = false.
Proof.
  intros b w o res p Ei r1 r2.
  assert (H1 : o = Some res) by (vm_compute; reflexivity).
  assert (H2 : nth_error (emitted res) 12 = Some (fst p, snd p))
    by (vm_compute; reflexivity).
  split; [exact H1|].
  split; [vm_compute; reflexivity|].
  split; [vm_compute; reflexivity|].
  split; [|vm_compute; reflexivity].
  exact (proj1 (C8_deflection_formula_by_index 400 b w res H1) 12%nat (fst p) (snd p) H2).
Defined.

(** ** The facade: the claim *)

(** C10, on the code: the condition ["toString"] is none of the two
    registered names, yet [this.analyzer["toString"]] is the function
    inherited from [Object.prototype]; the test [if (analyzer)] passes and
    the call of the missing generator method raises a [TypeError], not
    [Error('Invalid condition')].  Strings that name nothing, own or
    inherited, do get [Error('Invalid condition')] from the three methods. *)
Theorem C10_inherited_condition_not_rejected {num : Type} `{JSNumber num}
    (fuel : nat) (b : Beam num) (w : num) :
  "toString"%string <> "simply-supported"%string /\
  "toString"%string <> "two-span-unequal"%string /\
  getDeflection fuel b w "toString"
    = Thrown (TypeError "analyzer.getDeflectionEquation is not a function") /\
  getBendingMoment fuel b w "toString"
    = Thrown (TypeError "analyzer.getBendingMomentEquation is not a function") /\
  getShearForce fuel b w "toString"
    = Thrown (TypeError "analyzer.getShearForceEquation is not a function") /\
  getDeflection fuel b w "toString" <> Thrown (Error "Invalid condition") /\
  (forall condition : string,
     condition <> "simply-supported"%string ->
     condition <> "two-span-unequal"%string ->
     ~ In condition object_prototype_keys ->
     getDeflection fuel b w condition = Thrown (Error "Invalid condition") /\
     getBendingMoment fuel b w condition = Thrown (Error "Invalid condition") /\
     getShearForce fuel b w condition = Thrown (Error "Invalid condition")).
Proof.
  repeat split; try discriminate; try reflexivity.
  all: apply facade_invalid_condition; now apply analyzer_lookup_undefined.
Qed.

(** ** Zero-shear points never fall on the sampling grid *)

(** A binary quadratic form with three odd coefficients has no integer
    root but (0, 0): reduce [X] and [Y] modulo 2 and descend. *)
Lemma odd_form_no_root_Z (al be ga : Z) :
  Z.odd al = true -> Z.odd be = true -> Z.odd ga = true ->
  forall (n : nat) (X Y : Z),
    (Z.abs X + Z.abs Y < Z.of_nat n)%Z ->
    (al * X * X + be * X * Y + ga * Y * Y = 0)%Z ->
    X = 0%Z /\ Y = 0%Z.
Proof.
  intros Ha Hb Hc.
  apply Z.odd_spec in Ha, Hb, Hc.
  destruct Ha as (a & ->), Hb as (b & ->), Hc as (c & ->).
  induction n as [|n IH]; intros X Y Hn Heq; [lia|].
  destruct (Z.Even_or_Odd X) as [(x & ->) | (x & ->)];
    destruct (Z.Even_or_Odd Y) as [(y & ->) | (y & ->)].
  - assert (Hxy : x = 0%Z /\ y = 0%Z).
    { destruct (Z.eq_dec (Z.abs x + Z.abs y) 0) as [Hz | Hz]; [lia|].
      apply IH; [lia|].
      assert (H4 : (4 * ((2 * a + 1) * x * x + (2 * b + 1) * x * y
                         + (2 * c + 1) * y * y) = 0)%Z)
        by (rewrite <- Heq; ring).
      lia. }
    destruct Hxy as (-> & ->). split; reflexivity.
  - exfalso. ring_simplify in Heq.
    assert (H : (2 * (4 * a * x * x + 2 * x * x + 4 * b * x * y + 2 * b * x
                      + 2 * x * y + x + 4 * c * y * y + 4 * c * y + 2 * y * y
                      + 2 * y + c) + 1 = 0)%Z)
      by (rewrite <- Heq; ring).
    lia.
  - exfalso.
    assert (H : (2 * (4 * a * x * x + 4 * a * x + 2 * x * x + 2 * x + a
                      + 4 * b * x * y + 2 * b * y + 2 * x * y + y
                      + 4 * c * y * y + 2 * y * y) + 1 = 0)%Z)
      by (rewrite <- Heq; ring).
    lia.
  - exfalso.
    assert (H : (2 * (4 * a * x * x + 4 * a * x + 2 * x * x + 2 * x + a
                      + 4 * b * x * y + 2 * b * x + 2 * b * y + b
                      + 2 * x * y + x + y
                      + 4 * c * y * y + 4 * c * y + 2 * y * y + 2 * y + c + 1)
                 + 1 = 0)%Z)
      by (rewrite <- Heq; ring).
    lia.
Qed.

(** The same over the rationals. *)
Lemma odd_form_no_root (al be ga : Z) (x y : Q) :
  Z.odd al = true -> Z.odd be = true -> Z.odd ga = true ->
  inject_Z al * x * x + inject_Z be * x * y + inject_Z ga * y * y == 0 ->
  x == 0.
Proof.
  intros Ha Hb Hc Heq.
  destruct x as [nx dx], y as [ny dy].
  set (X := (nx * Z.pos dy)%Z). set (Y := (ny * Z.pos dx)%Z).
  assert (HZ : (al * X * X + be * X * Y + ga * Y * Y = 0)%Z).
  { unfold Qeq in Heq. simpl in Heq. rewrite !Pos2Z.inj_mul in Heq.
    unfold X, Y. pose proof (Pos2Z.is_pos dx) as Hdx.
    pose proof (Pos2Z.is_pos dy) as Hdy.
    set (DX := Z.pos dx) in *. set (DY := Z.pos dy) in *.
    assert (Hf : (DX * DY * (al * (nx * DY) * (nx * DY) + be * (nx * DY) * (ny * DX)
                             + ga * (ny * DX) * (ny * DX)) = 0)%Z)
      by (rewrite <- Heq; ring).
    apply Z.mul_eq_0 in Hf. destruct Hf as [Hf | Hf]; [|exact Hf].
    apply Z.mul_eq_0 in Hf. lia. }
  destruct (odd_form_no_root_Z al be ga Ha Hb Hc
              (S (Z.to_nat (Z.abs X + Z.abs Y))) X Y) as (HX & _); [lia | exact HZ |].
  unfold X in HX. unfold Qeq. simpl.
  apply Z.mul_eq_0 in HX. destruct HX as [-> | HX]; lia.
Qed.

Lemma Qsquare_nonneg (x : Q) : 0 <= x * x.
Proof. nra. Qed.

Lemma odd_minus_2k (c k : Z) : Z.odd c = true -> Z.odd (c - 2 * k) = true.
Proof.
  intros Hc. rewrite Z.odd_sub, Z.odd_mul, Hc. reflexivity.
Qed.

Lemma inject_Z_minus_2k (c k : Z) :
  inject_Z (c - 2 * k) == inject_Z c - 2 * inject_Z k.
Proof.
  unfold Zminus. rewrite inject_Z_plus, inject_Z_opp, inject_Z_mult. reflexivity.
Qed.

Section ZeroShear.

Variables w l1 l2 : Q.
Hypothesis w_nonzero : ~ w == 0.
Hypothesis l1_pos : 0 < l1.
Hypothesis l2_pos : 0 < l2.

(** The critical points [r1 / w] and [l - r3 / w] of [calculateValue]. *)
Local Abbreviation a := (reaction1 w l1 l2 / w).
Local Abbreviation b := ((l1 + l2) - reaction3 w l1 l2 / w).
Local Abbreviation dl := ((l1 + l2) / 100).

Lemma zero_shear_1_scaled (c k : Q) :
  (a - (c + k * dl)) * (800 * l1)
  == 300 * l1 * l1 + 100 * l1 * l2 - 100 * l2 * l2 - 800 * l1 * c
     - 8 * k * l1 * (l1 + l2).
Proof.
  unfold reaction1, support_moment, pow3. q_ops.
  change (inject_Z 8) with 8. change (inject_Z 2) with 2.
  field. repeat split; lra.
Qed.

Lemma zero_shear_2_scaled (c k : Q) :
  (b - (c + k * dl)) * (800 * l2)
  == 100 * l1 * l1 + 700 * l1 * l2 + 500 * l2 * l2 - 800 * l2 * c
     - 8 * k * l2 * (l1 + l2).
Proof.
  unfold reaction3, support_moment, pow3. q_ops.
  change (inject_Z 8) with 8. change (inject_Z 2) with 2.
  field. repeat split; lra.
Qed.

Lemma scaled_sign (x y : Q) : 0 < y -> x * (800 * y) < 0 -> x < 0.
Proof. intros Hy Hxy. nra. Qed.

Lemma scaled_zero (x y c k : Q) :
  x == c + k * dl -> (x - (c + k * dl)) * (800 * y) == 0.
Proof. intros ->. ring. Qed.

(** The first zero-shear point lies more than a nominal step left of the
    support, the second one right of the support. *)
Lemma zero_shear_1_far : a < l1 - dl.
Proof.
  pose proof (zero_shear_1_scaled l1 (-1)) as Hs.
  pose proof (Qsquare_nonneg (10 * l2 - (27 # 5) * l1)) as Hsq.
  assert (Hl1 : 0 < l1 * l1) by nra.
  assert (Hneg : (a - (l1 + -1 * dl)) * (800 * l1) < 0).
  { rewrite Hs. lra. }
  apply scaled_sign in Hneg; [|exact l1_pos]. lra.
Qed.

Lemma zero_shear_2_right : l1 < b.
Proof.
  pose proof (zero_shear_2_scaled l1 0) as Hs.
  assert (Hl1 : 0 < l1 * l1) by nra.
  assert (Hl2 : 0 < l2 * l2) by nra.
  pose proof (Qsquare_nonneg (2 * l1 - l2)) as Hsq.
  assert (Hneg : (l1 + 0 * dl - b) * (800 * l2) < 0).
  { setoid_replace ((l1 + 0 * dl - b) * (800 * l2))
      with (- ((b - (l1 + 0 * dl)) * (800 * l2))) by ring.
    rewrite Hs. lra. }
  apply scaled_sign in Hneg; [|exact l2_pos]. lra.
Qed.

Lemma zero_shear_1_off_grid (k : Z) :
  ~ a == inject_Z k * dl /\ ~ a == l1 + inject_Z k * dl.
Proof.
  split; intros Heq.
  - assert (Heq' : a == 0 + inject_Z k * dl) by (rewrite Heq; ring).
    pose proof (zero_shear_1_scaled 0 (inject_Z k)) as Hs.
    rewrite (scaled_zero a l1 0 (inject_Z k) Heq') in Hs.
    assert (Hz : l1 == 0); [|lra].
    apply (odd_form_no_root (75 - 2 * k) (25 - 2 * k) (-25) l1 l2);
      try (apply odd_minus_2k); try reflexivity.
    rewrite !inject_Z_minus_2k.
    change (inject_Z 75) with 75. change (inject_Z 25) with 25.
    change (inject_Z (-25)) with (-25).
    set (K := inject_Z k) in *. lra.
  - pose proof (zero_shear_1_scaled l1 (inject_Z k)) as Hs.
    rewrite (scaled_zero a l1 l1 (inject_Z k) Heq) in Hs.
    assert (Hz : l1 == 0); [|lra].
    apply (odd_form_no_root (-125 - 2 * k) (25 - 2 * k) (-25) l1 l2);
      try (apply odd_minus_2k); try reflexivity.
    rewrite !inject_Z_minus_2k.
    change (inject_Z (-125)) with (-125). change (inject_Z 25) with 25.
    change (inject_Z (-25)) with (-25).
    set (K := inject_Z k) in *. lra.
Qed.

Lemma zero_shear_2_off_grid (k : Z) :
  ~ b == inject_Z k * dl /\ ~ b == l1 + inject_Z k * dl.
Proof.
  split; intros Heq.
  - assert (Heq' : b == 0 + inject_Z k * dl) by (rewrite Heq; ring).
    pose proof (zero_shear_2_scaled 0 (inject_Z k)) as Hs.
    rewrite (scaled_zero b l2 0 (inject_Z k) Heq') in Hs.
    assert (Hz : l1 == 0); [|lra].
    apply (odd_form_no_root 25 (175 - 2 * k) (125 - 2 * k) l1 l2);
      try (apply odd_minus_2k); try reflexivity.
    rewrite !inject_Z_minus_2k.
    change (inject_Z 175) with 175. change (inject_Z 25) with 25.
    change (inject_Z 125) with 125.
    set (K := inject_Z k) in *. lra.
  - pose proof (zero_shear_2_scaled l1 (inject_Z k)) as Hs.
    rewrite (scaled_zero b l2 l1 (inject_Z k) Heq) in Hs.
    assert (Hz : l1 == 0); [|lra].
    apply (odd_form_no_root 25 (-25 - 2 * k) (125 - 2 * k) l1 l2);
      try (apply odd_minus_2k); try reflexivity.
    rewrite !inject_Z_minus_2k.
    change (inject_Z (-25)) with (-25). change (inject_Z 25) with 25.
    change (inject_Z 125) with 125.
    set (K := inject_Z k) in *. lra.
Qed.

End ZeroShear.

(** ** The deflection and bending-moment loops *)

Lemma reflect_and (P Q : Prop) (b c : bool) :
  reflect P b -> reflect Q c -> reflect (P /\ Q) (b && c).
Proof. intros [HP | HP] [HQ | HQ]; constructor; tauto. Qed.

Lemma reflect_or (P Q : Prop) (b c : bool) :
  reflect P b -> reflect Q c -> reflect (P \/ Q) (b || c).
Proof. intros [HP | HP] [HQ | HQ]; constructor; tauto. Qed.

Lemma reflect_not (P : Prop) (b : bool) : reflect P b -> reflect (~ P) (negb b).
Proof. intros [HP | HP]; constructor; tauto. Qed.

Section BendingStepping.

Variables l l1 r1 w r3 : Q.

Local Abbreviation dl := (l / 100).
Local Abbreviation a := (r1 / w).
Local Abbreviation b := (l - r3 / w).


Lemma advance_spec (s : Vars Q) : bending_step l l1 r1 w r3 s (advance l l1 r1 w r3 s).
Proof.
  unfold advance, calculateValue, set_m, set_lk. q_ops.
  destruct (Qeqb_spec (var_m s) 0) as [H0 | H0].
  { q_simpl. now apply step_start. }
  destruct (reflect_and _ _ _ _ (Qabs_leb_spec (var_m s - l1) dl)
              (Qltb_spec (var_m s - l1) 0)) as [H2 | H2].
  { q_simpl. now apply step_support. }
  destruct (reflect_and _ _ _ _
              (reflect_and _ _ _ _
                 (reflect_and _ _ _ _ (Qltb_spec (var_m s) l1)
                    (reflect_not _ _ (Qeqb_spec (var_m s) a)))
                 (reflect_not _ _ (Qeqb_spec (var_lk s) a)))
              (Qabs_leb_spec (var_m s - a) dl)) as [H3 | H3].
  { q_simpl. now apply step_zero_shear_1. }
  destruct (Qabs_ltb_spec (var_m s - l) dl) as [H4 | H4].
  { q_simpl. now apply step_end. }
  destruct (reflect_and _ _ _ _
              (reflect_and _ _ _ _
                 (reflect_and _ _ _ _ (Qltb_spec l1 (var_m s))
                    (reflect_not _ _ (Qeqb_spec (var_m s) b)))
                 (reflect_not _ _ (Qeqb_spec (var_lk s) b)))
              (Qabs_ltb_spec (var_m s - b) dl)) as [H5 | H5].
  { q_simpl. now apply step_zero_shear_2. }
  destruct (reflect_or _ _ _ _ (Qeqb_spec (var_m s) a) (Qeqb_spec (var_m s) b))
    as [H6 | H6].
  { q_simpl. now apply step_resume. }
  q_simpl. now apply step_next.
Qed.


Hypothesis l1_pos : 0 < l1.
Hypothesis l1_lt_l : l1 < l.
Hypothesis a_far : a < l1 - dl.
Hypothesis b_right : l1 < b.
Hypothesis a_off : forall x, on_grid l l1 x -> ~ x == a.
Hypothesis b_off : forall x, on_grid l l1 x -> ~ x == b.

Lemma l_pos_bending : 0 < l.
Proof. lra. Qed.

Lemma dl_pos : 0 < dl.
Proof. pose proof (hundredth l) as Hd. lra. Qed.

Lemma on_grid_0 (x : Q) : x == 0 -> on_grid l l1 x.
Proof. intros Hx. exists 0%Z. left. rewrite Hx. change (inject_Z 0) with 0. ring. Qed.

Lemma on_grid_l1 (x : Q) : x == l1 -> on_grid l l1 x.
Proof. intros Hx. exists 0%Z. right. rewrite Hx. change (inject_Z 0) with 0. ring. Qed.

Lemma on_grid_l (x : Q) : x == l -> on_grid l l1 x.
Proof.
  intros Hx. exists 100%Z. left. rewrite Hx. change (inject_Z 100) with 100.
  field.
Qed.

Lemma on_grid_next (x y : Q) : on_grid l l1 x -> y == x + dl -> on_grid l l1 y.
Proof.
  intros (k & [Hk | Hk]) Hy; exists (k + 1)%Z; [left | right];
    rewrite Hy, Hk, inject_Z_plus; change (inject_Z 1) with 1; ring.
Qed.

Lemma on_grid_not_zero_shear (s : Vars Q) : on_grid l l1 (var_m s) -> ~ on_zero_shear l r1 w r3 s.
Proof.
  intros Hg [Ha | Hb]; [exact (a_off _ Hg Ha) | exact (b_off _ Hg Hb)].
Qed.

Lemma bending_mu_off (s : Vars Q) :
  ~ on_zero_shear l r1 w r3 s ->
  (3 * steps_left l (var_m s) + 1 <= bending_mu l l1 r1 w r3 s <= 3 * steps_left l (var_m s) + 2)%Z.
Proof.
  intros Hz. unfold bending_mu.
  destruct (reflect_or _ _ _ _ (Qeqb_spec (var_m s) a) (Qeqb_spec (var_m s) b))
    as [H6 | H6]; [contradiction|].
  destruct (Qeqb_spec (var_m s) l1) as [H1 | H1]; [|lia].
  rewrite (steps_left_comp l (var_m s) l1 H1). lia.
Qed.

Lemma bending_mu_on (s : Vars Q) :
  on_zero_shear l r1 w r3 s -> bending_mu l l1 r1 w r3 s = (3 * steps_left l (var_lk s) + 1)%Z.
Proof.
  intros Hz. unfold bending_mu.
  destruct (reflect_or _ _ _ _ (Qeqb_spec (var_m s) a) (Qeqb_spec (var_m s) b))
    as [H6 | H6]; [reflexivity | contradiction].
Qed.

Lemma bending_inv_nonneg (s : Vars Q) : bending_inv l l1 r1 w r3 s -> (0 <= bending_mu l l1 r1 w r3 s)%Z.
Proof.
  intros (Hle & [Hg | (Hz & Hg & Hk)]).
  - pose proof (bending_mu_off s (on_grid_not_zero_shear s Hg)).
    pose proof (steps_left_nonneg l l_pos_bending (var_m s) Hle). lia.
  - rewrite (bending_mu_on s Hz). pose proof dl_pos.
    assert (Hlk : var_lk s <= l) by lra.
    pose proof (steps_left_nonneg l l_pos_bending (var_lk s) Hlk). lia.
Qed.

Lemma bending_mu_plain (s : Vars Q) :
  ~ on_zero_shear l r1 w r3 s -> ~ var_m s == l1 ->
  bending_mu l l1 r1 w r3 s = (3 * steps_left l (var_m s) + 2)%Z.
Proof.
  intros Hz H1. unfold bending_mu.
  destruct (reflect_or _ _ _ _ (Qeqb_spec (var_m s) a) (Qeqb_spec (var_m s) b))
    as [H6 | H6]; [contradiction|].
  destruct (Qeqb_spec (var_m s) l1); [contradiction | reflexivity].
Qed.

Lemma bending_mu_support (s : Vars Q) :
  var_m s == l1 -> bending_mu l l1 r1 w r3 s = (3 * steps_left l l1 + 1)%Z.
Proof.
  intros H1. unfold bending_mu.
  destruct (reflect_or _ _ _ _ (Qeqb_spec (var_m s) a) (Qeqb_spec (var_m s) b))
    as [H6 | H6].
  - exfalso. revert H6. apply on_grid_not_zero_shear. now apply on_grid_l1.
  - destruct (Qeqb_spec (var_m s) l1); [reflexivity | contradiction].
Qed.

(** Every update keeps the invariant and lowers the variant. *)
Lemma bending_step_decreases (s : Vars Q) :
  bending_inv l l1 r1 w r3 s -> ~ var_m s == l ->
  bending_inv l l1 r1 w r3 (advance l l1 r1 w r3 s) /\
  (0 <= bending_mu l l1 r1 w r3 (advance l l1 r1 w r3 s) < bending_mu l l1 r1 w r3 s)%Z.
Proof.
  intros (Hle & Hpos) Hne.
  pose proof l_pos_bending as Hl. pose proof dl_pos as Hdl.
  pose proof (hundredth l) as Hd.
  assert (Hlt : var_m s < l) by lra.
  assert (Hgrid : ~ on_zero_shear l r1 w r3 s -> on_grid l l1 (var_m s)) by tauto.
  assert (Hlow : ~ on_zero_shear l r1 w r3 s ->
                 (3 * steps_left l (var_m s) + 1 <= bending_mu l l1 r1 w r3 s)%Z)
    by (intros Hz; pose proof (bending_mu_off s Hz); lia).
  pose proof (steps_left_pos l Hl (var_m s) Hlt) as Hsteps.
  enough (Hgoal : bending_inv l l1 r1 w r3 (advance l l1 r1 w r3 s) /\
                  (bending_mu l l1 r1 w r3 (advance l l1 r1 w r3 s) < bending_mu l l1 r1 w r3 s)%Z).
  { destruct Hgoal as (Hinv' & Hdec). split; [exact Hinv'|].
    split; [now apply bending_inv_nonneg | exact Hdec]. }
  destruct (advance_spec s) as [H0 | H0 H2 | H0 H2 H3 | H0 H2 H3 H4
                               | H0 H2 H3 H4 H5 | H0 H2 H3 H4 H5 H6
                               | H0 H2 H3 H4 H5 H6];
    unfold near_support, near_zero_shear_1, near_end, near_zero_shear_2 in *.
  - (* from the left end *)
    assert (Hg : on_grid l l1 (var_m s)) by now apply on_grid_0.
    assert (Hg' : on_grid l l1 (var_m s + dl)) by (apply (on_grid_next (var_m s)); [exact Hg | reflexivity]).
    split.
    + split; [q_simpl; lra | left; exact Hg'].
    + pose proof (bending_mu_off {| var_m := var_m s + dl;
                    var_lk := var_m s + dl - (var_m s + dl + dl) |}
                    (on_grid_not_zero_shear {| var_m := var_m s + dl;
                    var_lk := var_m s + dl - (var_m s + dl + dl) |} Hg')) as Hup.
      q_simpl_in Hup.
      rewrite (steps_left_step l Hl (var_m s) (var_m s + dl)) in Hup by reflexivity.
      pose proof (Hlow (on_grid_not_zero_shear s Hg)). lia.
  - (* snapping to the support *)
    assert (Hz : ~ on_zero_shear l r1 w r3 s) by (intros [Hz | Hz]; lra).
    split.
    + split; [q_simpl; lra | left; now apply on_grid_l1].
    + rewrite (bending_mu_support {| var_m := l1; var_lk := var_m s |})
        by reflexivity.
      rewrite (bending_mu_plain s Hz) by lra.
      assert (Hm : (steps_left l l1 <= steps_left l (var_m s))%Z)
        by (apply steps_left_mono; [exact Hl | lra]).
      lia.
  - (* snapping to the first zero-shear point *)
    assert (Hz : ~ on_zero_shear l r1 w r3 s) by (intros [Hz | Hz]; lra).
    assert (Hfar : var_m s + dl < l1).
    { destruct (Qlt_le_dec (var_m s + dl) l1); [assumption|].
      exfalso. apply H2. lra. }
    assert (Hz' : on_zero_shear l r1 w r3 {| var_m := a; var_lk := var_m s |})
      by (left; reflexivity).
    split.
    + split; [q_simpl; lra|]. right. split; [exact Hz'|].
      q_simpl. split; [now apply Hgrid | lra].
    + rewrite (bending_mu_on _ Hz'). q_simpl.
      rewrite (bending_mu_plain s Hz) by lra. lia.
  - (* snapping to the right end *)
    assert (Hg' : on_grid l l1 l) by now apply on_grid_l.
    split.
    + split; [q_simpl; lra | left; exact Hg'].
    + pose proof (bending_mu_off {| var_m := l; var_lk := var_lk s |}
                    (on_grid_not_zero_shear {| var_m := l; var_lk := var_lk s |} Hg')) as Hup.
      q_simpl_in Hup.
      rewrite (steps_left_end l Hl l) in Hup by reflexivity.
      destruct Hpos as [Hg | (Hz & Hg & Hk)].
      * pose proof (Hlow (on_grid_not_zero_shear s Hg)). lia.
      * rewrite (bending_mu_on s Hz).
        assert (Hlk : var_lk s < l) by lra.
        pose proof (steps_left_pos l Hl (var_lk s) Hlk). lia.
  - (* snapping to the second zero-shear point *)
    assert (Hz : ~ on_zero_shear l r1 w r3 s) by (intros [Hz | Hz]; lra).
    assert (Hroom : var_m s + dl <= l).
    { destruct (Qlt_le_dec l (var_m s + dl)); [|assumption].
      exfalso. apply H4. lra. }
    assert (Hz' : on_zero_shear l r1 w r3 {| var_m := b; var_lk := var_m s |})
      by (right; reflexivity).
    split.
    + split; [q_simpl; lra|]. right. split; [exact Hz'|].
      q_simpl. split; [now apply Hgrid | exact Hroom].
    + rewrite (bending_mu_on _ Hz'). q_simpl.
      rewrite (bending_mu_plain s Hz) by lra. lia.
  - (* resuming from a zero-shear point *)
    destruct Hpos as [Hg | (Hz & Hg & Hk)];
      [exfalso; exact (on_grid_not_zero_shear s Hg H6)|].
    assert (Hg' : on_grid l l1 (var_lk s + dl))
      by (apply (on_grid_next (var_lk s)); [exact Hg | reflexivity]).
    split.
    + split; [q_simpl; exact Hk | left; exact Hg'].
    + pose proof (bending_mu_off {| var_m := var_lk s + dl; var_lk := var_m s |}
                    (on_grid_not_zero_shear {| var_m := var_lk s + dl; var_lk := var_m s |} Hg')) as Hup.
      q_simpl_in Hup.
      rewrite (steps_left_step l Hl (var_lk s) (var_lk s + dl)) in Hup by reflexivity.
      rewrite (bending_mu_on s Hz). lia.
  - (* a nominal step *)
    assert (Hg : on_grid l l1 (var_m s)) by now apply Hgrid.
    assert (Hg' : on_grid l l1 (var_m s + dl))
      by (apply (on_grid_next (var_m s)); [exact Hg | reflexivity]).
    assert (Hroom : var_m s + dl <= l).
    { destruct (Qlt_le_dec l (var_m s + dl)); [|assumption].
      exfalso. apply H4. lra. }
    split.
    + split; [q_simpl; exact Hroom | left; exact Hg'].
    + pose proof (bending_mu_off {| var_m := var_m s + dl;
                    var_lk := var_m s + dl - (var_m s + dl) |}
                    (on_grid_not_zero_shear {| var_m := var_m s + dl;
                    var_lk := var_m s + dl - (var_m s + dl) |} Hg')) as Hup.
      q_simpl_in Hup.
      rewrite (steps_left_step l Hl (var_m s) (var_m s + dl)) in Hup by reflexivity.
      pose proof (Hlow H6). lia.
Qed.

End BendingStepping.

(** ** Termination of the three stepping loops *)

Section TwoSpanTermination.

Variables w l1 l2 : Q.
Hypothesis w_nonzero : ~ w == 0.
Hypothesis l1_pos : 0 < l1.
Hypothesis l2_pos : 0 < l2.

Local Abbreviation l := (l1 + l2).
Local Abbreviation r1 := (reaction1 w l1 l2).
Local Abbreviation r3 := (reaction3 w l1 l2).

Lemma l1_lt_total : l1 < l.
Proof. lra. Qed.

Lemma zero_shear_1_not_on_grid (x : Q) : on_grid l l1 x -> ~ x == r1 / w.
Proof.
  intros (k & [Hk | Hk]) Hx;
    destruct (zero_shear_1_off_grid w l1 l2 w_nonzero l1_pos l2_pos k) as (Ha & Hb);
    [apply Ha | apply Hb]; (transitivity x; [symmetry; exact Hx | exact Hk]).
Qed.

Lemma zero_shear_2_not_on_grid (x : Q) : on_grid l l1 x -> ~ x == l - r3 / w.
Proof.
  intros (k & [Hk | Hk]) Hx;
    destruct (zero_shear_2_off_grid w l1 l2 w_nonzero l1_pos l2_pos k) as (Ha & Hb);
    [apply Ha | apply Hb]; (transitivity x; [symmetry; exact Hx | exact Hk]).
Qed.

(** A loop driven by [advance] ends on the position [l], whatever ordinate
    it emits. *)
Lemma advance_loop_terminates (val : nat -> Vars Q -> Q) (fuel : nat) :
  (302 < fuel)%nat ->
  exists x y rest,
    run (advance l l1 r1 w r3) val l fuel 0 initial_vars [] = Some ((x, y) :: rest) /\
    x == l.
Proof.
  intros Hfuel.
  pose proof l1_lt_total as Hl1.
  assert (Hl : 0 < l) by lra.
  pose proof (zero_shear_1_far w l1 l2 w_nonzero l1_pos l2_pos) as Ha.
  pose proof (zero_shear_2_right w l1 l2 w_nonzero l1_pos l2_pos) as Hb.
  assert (Hinit : bending_inv l l1 r1 w r3 (@initial_vars Q _)).
  { split; [simpl; change (inject_Z 0) with 0; lra|].
    left. apply on_grid_0. reflexivity. }
  destruct (run_terminates (advance l l1 r1 w r3) val l
              (fun _ s _ => bending_inv l l1 r1 w r3 s) (bending_mu l l1 r1 w r3))
    with (fuel := fuel) (i := 0%nat) (s := @initial_vars Q _) (acc := @nil (Q * Q))
    as (i' & s' & acc' & Hrun & Hend & _).
  - intros _ s _ (Hle & _). exact Hle.
  - intros _ s _ Hs.
    apply (bending_inv_nonneg l l1 r1 w r3 l1_pos Hl1
             zero_shear_1_not_on_grid zero_shear_2_not_on_grid s Hs).
  - intros _ s _ Hs Hne.
    apply (bending_step_decreases l l1 r1 w r3 l1_pos Hl1 Ha Hb
             zero_shear_1_not_on_grid zero_shear_2_not_on_grid s Hs Hne).
  - exact Hinit.
  - assert (Hz : ~ on_zero_shear l r1 w r3 (@initial_vars Q _)).
    { apply (on_grid_not_zero_shear l l1 r1 w r3
               zero_shear_1_not_on_grid zero_shear_2_not_on_grid).
      apply on_grid_0. reflexivity. }
    pose proof (bending_mu_off l l1 r1 w r3 _ Hz) as Hb'.
    rewrite (steps_left_initial l Hl) in Hb'. lia.
  - exists (var_m s'), (val i' s'), acc'. split; [exact Hrun | exact Hend].
Qed.

End TwoSpanTermination.

Lemma last_xs_of {num : Type} `{JSNumber num} (x y : num) (rest : Samples num) :
  last (xs_of ((x, y) :: rest)) ""%string = show (toFixed2 x).
Proof. unfold xs_of. simpl. apply last_last. Qed.


Lemma ends_at_intro (l : Q) (kind : string) (o : option (Samples Q)) :
  (exists x y rest, o = Some ((x, y) :: rest) /\ x == l) ->
  ends_at l o (option_map (curve_of kind) o).
Proof.
  intros (x & y & rest & -> & Hx).
  exists x, y, rest, (curve_of kind ((x, y) :: rest)).
  repeat split; try assumption.
  simpl xdata. rewrite last_xs_of.
  change (@toFixed2 Q QNumber) with Q_toFixed2.
  now rewrite (Q_toFixed2_comp x l Hx).
Qed.

(** In exact arithmetic, for spans [l1 > 0], [l2 > 0] and load [w <> 0], the
    stepping loop of each of the three two-span generators terminates, and
    the last position it emits is exactly [l = l1 + l2]; every update of the
    position is a nominal step [l/100] from the current or the look-back
    position, or a snap to a critical point. *)
Lemma stepping_loops_terminate_exact (b : Beam Q) (w : Q) (fuel : nat) :
  0 < primarySpan b -> 0 < secondarySpan b -> ~ w == 0 ->
  (302 < fuel)%nat ->
  let l1 := primarySpan b in
  let l2 := secondarySpan b in
  let l := l1 + l2 in
  let r1 := reaction1 w l1 l2 in
  let r3 := reaction3 w l1 l2 in
  ends_at l (ts_deflection_samples fuel b w) (ts_getDeflectionEquation fuel b w) /\
  ends_at l (ts_bending_samples fuel b w) (ts_getBendingMomentEquation fuel b w) /\
  ends_at l (ts_shear_samples fuel b w) (ts_getShearForceEquation fuel b w) /\
  (forall s : Vars Q,
     let m' := var_m (advance l l1 r1 w r3 s) in
     m' = var_m s + l / 100 \/ m' = l1 \/ m' = r1 / w \/ m' = l \/
     m' = l - r3 / w \/ m' = var_lk s + l / 100) /\
  (forall s : Vars Q,
     let m' := var_m (shear_advance l l1 s) in
     m' = var_m s + l / 100 \/ m' = l1 \/ m' = l).
Proof.
  intros H1 H2 Hw Hfuel l1 l2 l r1 r3.
  assert (Hl : l1 < l) by (unfold l, l1, l2; lra).
  split; [|split; [|split; [|split]]].
  - apply ends_at_intro. unfold ts_deflection_samples.
    rewrite (deflection_loop_run _ _ _ _ _ _ _ _ fuel 0).
    apply (advance_loop_terminates w l1 l2 Hw H1 H2 _ fuel Hfuel).
  - apply ends_at_intro. unfold ts_bending_samples.
    rewrite (bending_loop_run _ _ _ _ _ _ fuel 0).
    apply (advance_loop_terminates w l1 l2 Hw H1 H2 _ fuel Hfuel).
  - apply ends_at_intro.
    apply (shear_loop_terminates l l1 _ _ w H1 Hl fuel Hfuel).
  - intros s m'. unfold m'.
    destruct (advance_spec l l1 r1 w r3 s); q_simpl; tauto.
  - intros s m'. unfold m'.
    destruct (shear_advance_spec l l1 s); q_simpl; tauto.
Qed.

(** C9, on the doubles the program computes with: for spans 1 and 1 and the
    load 5e-324, which is not zero, the left reaction [r1] evaluates to 0,
    so the zero-shear point [r1/w] is the left end; the positions of the
    deflection and bending-moment loops are 0, 0.02, 0, 0.02, 0, ..., and
    neither generator returns, whatever the number of iterations allowed.
    The shear generator returns 102 samples. *)
Theorem C9_double_loops_never_return (fuel : nat) :
  let b : Beam float := beam_of 1 1 in
  let w : float := min_value in
  let l1 := primarySpan b in
  let l2 := secondarySpan b in
  let step := advance (l1 + l2)%js l1 (reaction1 w l1 l2) w (reaction3 w l1 l2) in
  ((ofZ 0 <? l1) = true /\ (ofZ 0 <? l2) = true /\ (w === ofZ 0) = false)%js /\
  (reaction1 w l1 l2 / w)%js = ofZ 0 /\
  map (fun k => var_m (Nat.iter k step initial_vars)) [0; 1; 2; 3; 4]%nat
  = [ofZ 0; ((l1 + l2) / ofZ 100)%js; ofZ 0; ((l1 + l2) / ofZ 100)%js; ofZ 0] /\
  ts_getBendingMomentEquation fuel b w = None /\
  ts_getDeflectionEquation fuel b w = None /\
  option_map (fun c => List.length (xdata c)) (ts_getShearForceEquation 200 b w)
  = Some 102%nat.
Proof.
  intros b w l1 l2 step.
  split; [repeat split; vm_compute; reflexivity|].
  split; [vm_compute; reflexivity|].
  split; [vm_compute; reflexivity|].
  split; [|split; [|vm_compute; reflexivity]].
  all: set (s1 := step initial_vars); set (s2 := step s1).
  all: assert (Hstuck : forall s, In s [initial_vars; s1; s2] ->
              (var_m s <=? l1 + l2)%js = true /\ (var_m s === l1 + l2)%js = false /\
              In (step s) [initial_vars; s1; s2])
    by (intros s [<- | [<- | [<- | []]]];
        (split; [vm_compute; reflexivity | split; [vm_compute; reflexivity|]]);
        [ right; left; reflexivity
        | right; right; left; reflexivity
        | right; left; vm_compute; reflexivity ]).
  - unfold ts_getBendingMomentEquation, ts_bending_samples. cbv zeta.
    rewrite (bending_loop_never_returns _ _ _ _ _ _ _ Hstuck) by (left; reflexivity).
    reflexivity.
  - unfold ts_getDeflectionEquation, ts_deflection_samples. cbv zeta.
    rewrite (deflection_loop_never_returns _ _ _ _ _ _ _ _ _ Hstuck) by (left; reflexivity).
    reflexivity.
Qed.

(** * Further properties of the program *)

(** ** Curves and charts, for every number type *)

Section GenericCurves.

Import AnalysisPlotter.

Context {num : Type} `{JSNumber num}.

Local Open Scope js_scope.

(** The abscissas of a curve are those of its samples. *)
Lemma xs_of_positions (acc acc' : Samples num) :
  map fst acc = map fst acc' -> xs_of acc = xs_of acc'.
Proof.
  intros Heq. unfold xs_of. f_equal.
  rewrite <- (map_map fst (fun x => show (toFixed2 x)) acc).
  rewrite <- (map_map fst (fun x => show (toFixed2 x)) acc').
  now rewrite Heq.
Qed.

(** The positions of a simply supported loop do not depend on its body. *)
Lemma ss_loop_positions (value value' : num -> num) (span : num) :
  forall (fuel : nat) (x : num) (acc acc' : Samples num),
    map fst acc = map fst acc' ->
    option_map (@map _ _ fst) (ss_loop fuel value span x acc)
    = option_map (@map _ _ fst) (ss_loop fuel value' span x acc').
Proof.
  induction fuel as [|fuel IH]; intros x acc acc' Hacc; simpl; [reflexivity|].
  destruct (x <=? span).
  - apply IH. simpl. now rewrite Hacc.
  - simpl. now rewrite Hacc.
Qed.

Lemma option_map_xdata (kind kind' : string) (o o' : option (Samples num)) :
  option_map (@map _ _ fst) o = option_map (@map _ _ fst) o' ->
  option_map xdata (option_map (curve_of kind) o)
  = option_map xdata (option_map (curve_of kind') o').
Proof.
  destruct o as [acc|], o' as [acc'|]; simpl; try discriminate; [|reflexivity].
  intros [= Heq]. f_equal. now apply xs_of_positions.
Qed.

(** The deflection loop and the bending-moment loop visit the same
    positions. *)
Lemma two_span_loops_positions (Ei j l l1 r1 r2 r3 w : num) :
  forall (fuel i : nat) (s : Vars num) (acc acc' : Samples num),
    map fst acc = map fst acc' ->
    option_map (@map _ _ fst) (deflection_loop fuel Ei j l l1 r1 r2 r3 w i s acc)
    = option_map (@map _ _ fst) (bending_loop fuel l l1 r1 r2 r3 w s acc').
Proof.
  induction fuel as [|fuel IH]; intros i s acc acc' Hacc; simpl; [reflexivity|].
  destruct (var_m s <=? l).
  - destruct (var_m s === l).
    + simpl. now rewrite Hacc.
    + apply IH. simpl. now rewrite Hacc.
  - simpl. now rewrite Hacc.
Qed.

(** The shear loop pairs each position with [calculate] there. *)
Lemma shear_loop_values (l l1 r1 r2 w : num) :
  forall (fuel : nat) (s : Vars num) (acc res : Samples num),
    shear_loop fuel l l1 r1 r2 w s acc = Some res ->
    Forall (fun p => exists mn, snd p = calculate (fst p) mn (fst p) r1 r2 w l l1) acc ->
    Forall (fun p => exists mn, snd p = calculate (fst p) mn (fst p) r1 r2 w l l1) res.
Proof.
  induction fuel as [|fuel IH]; simpl; intros s acc res Hres Hacc; [discriminate|].
  destruct (var_m s <=? l).
  - destruct (var_m s === l).
    + injection Hres as <-. constructor; [now exists (var_lk s) | exact Hacc].
    + apply IH in Hres; [exact Hres|]. constructor; [now exists (var_lk s) | exact Hacc].
  - now injection Hres as <-.
Qed.

Lemma analyzer_lookup_registered (condition : string) (a : Analyzer) :
  analyzer_lookup condition = Registered a ->
  condition = "simply-supported"%string \/ condition = "two-span-unequal"%string.
Proof.
  unfold analyzer_lookup.
  destruct (String.eqb_spec condition "simply-supported"); [now left|].
  destruct (String.eqb_spec condition "two-span-unequal"); [now right|].
  destruct (existsb _ _); discriminate.
Qed.

Lemma wrap_returned (kind : string) (b : Beam num) (w : num)
    (o : option (Samples num)) (r : AnalysisResult num) :
  wrap b w (option_map (curve_of kind) o) = Returned r ->
  beam r = b /\ load r = w /\ analys (equation r) = kind /\
  List.length (xdata (equation r)) = List.length (ydata (equation r)).
Proof.
  destruct o as [acc|]; simpl; [|discriminate].
  intros [= <-]. simpl. repeat split. now rewrite xs_of_length, ys_of_length.
Qed.

(** X1. Whatever a facade method returns was asked under one of the two
    registered conditions, carries the beam and the load of the call, and
    holds a curve tagged with the method's quantity (["deflection"],
    ["bendingmoment"], ["shearforce"]) whose [xdata] and [ydata] have the
    same length. *)
Theorem X1_facade_result_envelope (fuel : nat) (b : Beam num) (w : num)
    (condition : string) (r : AnalysisResult num) :
  let well_formed (kind : string) :=
    (condition = "simply-supported"%string \/ condition = "two-span-unequal"%string) /\
    beam r = b /\ load r = w /\ analys (equation r) = kind /\
    List.length (xdata (equation r)) = List.length (ydata (equation r)) in
  (getDeflection fuel b w condition = Returned r -> well_formed "deflection"%string) /\
  (getBendingMoment fuel b w condition = Returned r -> well_formed "bendingmoment"%string) /\
  (getShearForce fuel b w condition = Returned r -> well_formed "shearforce"%string).
Proof.
  intros well_formed. unfold well_formed, getDeflection, getBendingMoment, getShearForce.
  destruct (analyzer_lookup condition) as [a| |] eqn:Hl;
    [|repeat split; discriminate..].
  pose proof (analyzer_lookup_registered condition a Hl) as Hc.
  split; [|split]; intros Hr; (split; [exact Hc|]);
    destruct a; apply wrap_returned in Hr; exact Hr.
Qed.

(** X2. Plotting what a facade method returned draws exactly one line chart,
    on the canvas of the method's quantity, with the curve's [xdata] as
    labels and its [ydata] as the only dataset; the shear-force chart, and
    only it, is then updated. *)
Theorem X2_plot_draws_the_chart_of_the_quantity (fuel : nat) (b : Beam num) (w : num)
    (condition : string) (r : AnalysisResult num) :
  let line (title : string) : Config :=
    {| type := "line";
       labels := xdata (equation r);
       datasets := [ {| label := title;
                        data := ydata (equation r);
                        borderWidth := 2;
                        borderColor := "rgb(255, 15, 15)";
                        fill := true |} ];
       legend_display := true |} in
  (getShearForce fuel b w condition = Returned r ->
   plot r = [New "shear_force_plot" (line "Shear Force"%string);
             Update "shear_force_plot"]) /\
  (getBendingMoment fuel b w condition = Returned r ->
   plot r = [New "bending_moment_plot" (line "Bending Moment"%string)]) /\
  (getDeflection fuel b w condition = Returned r ->
   plot r = [New "deflection_plot" (line "Deflection"%string)]).
Proof.
  intros line. unfold getDeflection, getBendingMoment, getShearForce.
  destruct (analyzer_lookup condition) as [a| |];
    [|repeat split; discriminate..].
  split; [|split]; intros Hr; destruct a; apply wrap_returned in Hr;
    destruct Hr as (_ & _ & Hk & _); unfold plot; rewrite Hk; reflexivity.
Qed.

(** X3. The [xdata] of a simply supported curve depends on [primarySpan]
    only: for beams of the same primary span the three generators return
    the same [xdata] (or none of them returns), whatever the loads, the
    materials and [j2]. *)
Theorem X3_simply_supported_xdata_by_span (fuel : nat) (b b' b'' : Beam num)
    (w w' w'' : num) :
  primarySpan b = primarySpan b' -> primarySpan b' = primarySpan b'' ->
  option_map xdata (ss_getDeflectionEquation fuel b w)
  = option_map xdata (ss_getBendingMomentEquation fuel b' w') /\
  option_map xdata (ss_getBendingMomentEquation fuel b' w')
  = option_map xdata (ss_getShearForceEquation fuel b'' w'').
Proof.
  intros Hb Hb'.
  unfold ss_getDeflectionEquation, ss_getBendingMomentEquation, ss_getShearForceEquation.
  rewrite Hb, <- Hb'.
  split; apply option_map_xdata, ss_loop_positions; reflexivity.
Qed.

(** X4. For the same spans and load, the two-span deflection curve and the
    two-span bending-moment curve have the same [xdata] (or neither
    generator returns), whatever the materials and [j2]. *)
Theorem X4_two_span_deflection_bending_share_xdata (fuel : nat) (b b' : Beam num)
    (w : num) :
  primarySpan b = primarySpan b' -> secondarySpan b = secondarySpan b' ->
  option_map xdata (ts_getDeflectionEquation fuel b w)
  = option_map xdata (ts_getBendingMomentEquation fuel b' w).
Proof.
  intros H1 H2.
  unfold ts_getDeflectionEquation, ts_getBendingMomentEquation,
    ts_deflection_samples, ts_bending_samples.
  rewrite H1, H2.
  apply option_map_xdata, two_span_loops_positions. reflexivity.
Qed.

End GenericCurves.

Lemma X1_witness :
  let b : Beam float := beam_of 4 0 in
  let w : float := ofZ 10 in
  let c := getDeflection 200 b w "simply-supported" in
  let r := match c with
           | Returned r => r
           | _ => {| beam := b; load := w; equation := curve_of "" [] |}
           end in
  c = Returned r /\ analys (equation r) = "deflection"%string /\
  List.length (xdata (equation r)) = List.length (ydata (equation r)).
Proof.
  intros b w c r.
  assert (Hc : c = Returned r) by (vm_compute; reflexivity).
  split; [exact Hc|].
  destruct (proj1 (X1_facade_result_envelope 200 b w "simply-supported" r) Hc)
    as (_ & _ & _ & Hk & Hlen).
  split; [exact Hk | exact Hlen].
Defined.

Lemma X2_witness :
  let b : Beam float := beam_of 4 0 in
  let w : float := ofZ 10 in
  let c := getShearForce 200 b w "simply-supported" in
  let r := match c with
           | Returned r => r
           | _ => {| beam := b; load := w; equation := curve_of "" [] |}
           end in
  c = Returned r /\
  exists config,
    AnalysisPlotter.plot r
    = [AnalysisPlotter.New "shear_force_plot" config;
       AnalysisPlotter.Update "shear_force_plot"] /\
    AnalysisPlotter.labels config = xdata (equation r).
Proof.
  intros b w c r.
  assert (Hc : c = Returned r) by (vm_compute; reflexivity).
  split; [exact Hc|].
  eexists. split.
  - exact (proj1 (X2_plot_draws_the_chart_of_the_quantity 200 b w
                    "simply-supported" r) Hc).
  - reflexivity.
Defined.

Lemma X3_witness :
  let b : Beam float := beam_of 4 0 in
  primarySpan b = primarySpan b /\
  option_map xdata (ss_getDeflectionEquation 200 b (ofZ 10))
  = option_map xdata (ss_getShearForceEquation 200 b (ofZ 3)).
Proof.
  intros b.
  assert (Hb : primarySpan b = primarySpan b) by reflexivity.
  split; [exact Hb|].
  destruct (X3_simply_supported_xdata_by_span 200 b b b (ofZ 10) (ofZ 7) (ofZ 3) Hb Hb)
    as (H1 & H2).
  exact (eq_trans H1 H2).
Defined.

Lemma X4_witness :
  let b : Beam float := beam_of 10 23 in
  primarySpan b = primarySpan b /\ secondarySpan b = secondarySpan b /\
  option_map xdata (ts_getDeflectionEquation 200 b (ofZ 1))
  = option_map xdata (ts_getBendingMomentEquation 200 b (ofZ 1)).
Proof.
  intros b.
  assert (H1 : primarySpan b = primarySpan b) by reflexivity.
  assert (H2 : secondarySpan b = secondarySpan b) by reflexivity.
  split; [exact H1 | split; [exact H2|]].
  exact (X4_two_span_deflection_bending_share_xdata 200 b b (ofZ 1) H1 H2).
Defined.

(** ** A beam without [j2], on the doubles *)

Lemma double_mul_nan_r (x : float) : PrimFloat.mul x nan = nan.
Proof.
  rewrite <- (SF2Prim_Prim2SF (PrimFloat.mul x nan)), mul_spec.
  change (Prim2SF nan) with S754_nan.
  destruct (Prim2SF x) as [s | s | | s m e]; reflexivity.
Qed.

Lemma double_mul_nan_l (x : float) : PrimFloat.mul nan x = nan.
Proof.
  rewrite <- (SF2Prim_Prim2SF (PrimFloat.mul nan x)), mul_spec.
  change (Prim2SF nan) with S754_nan. reflexivity.
Qed.

Lemma ss_deflection_value_nan (w l Ei x : float) :
  ss_deflection_value w l Ei nan x = nan.
Proof.
  unfold ss_deflection_value.
  change (@mul float DoubleNumber) with PrimFloat.mul.
  now rewrite double_mul_nan_r, double_mul_nan_l.
Qed.

Lemma calculatePoint1_nan (x Ei r1 w l1 : float) :
  calculatePoint1 x Ei r1 w l1 nan = nan.
Proof.
  unfold calculatePoint1.
  change (@mul float DoubleNumber) with PrimFloat.mul.
  now rewrite double_mul_nan_r.
Qed.

Lemma calculatePoint2_nan (x r1 r2 l1 w Ei : float) :
  calculatePoint2 x r1 r2 l1 w Ei nan = nan.
Proof.
  unfold calculatePoint2. cbv zeta.
  change (@mul float DoubleNumber) with PrimFloat.mul.
  now rewrite double_mul_nan_r.
Qed.

Lemma ys_of_all (P : float -> Prop) (text : string) (acc : Samples float) :
  (forall y, P y -> show (toFixed2 y) = text) ->
  Forall (fun s => P (snd s)) acc ->
  Forall (fun y => y = text) (ys_of acc).
Proof.
  intros HP Hacc. unfold ys_of. apply Forall_rev. apply Forall_map.
  eapply Forall_impl; [|exact Hacc]. intros s Hs. now apply HP.
Qed.

(** X5. On the doubles: when [beam.j2] is NaN, which is what the [j2] the
    [Beam] constructor leaves unset amounts to in the products of the
    deflection formulas, every ordinate of the deflection curve of either
    analyzer is the string ["NaN"], whatever the spans, the material and the
    load. *)
Theorem X5_deflection_is_NaN_without_j2 (fuel : nat) (b : Beam float) (w : float)
    (c : Curve) :
  j2 b = nan ->
  ss_getDeflectionEquation fuel b w = Some c \/ ts_getDeflectionEquation fuel b w = Some c ->
  analys c = "deflection"%string /\
  List.length (xdata c) = List.length (ydata c) /\
  Forall (fun y => y = "NaN"%string) (ydata c).
Proof.
  intros Hj [Hc | Hc].
  - unfold ss_getDeflectionEquation in Hc. rewrite Hj in Hc.
    apply option_map_some in Hc. destruct Hc as (res & Hrun & ->).
    split; [reflexivity | split; [apply curve_of_lengths|]].
    simpl. apply (ys_of_all (fun y => y = nan)); [intros y ->; reflexivity|].
    apply ss_loop_values in Hrun; [|constructor].
    eapply Forall_impl; [|exact Hrun].
    intros s Hs. cbv beta in Hs. rewrite Hs. apply ss_deflection_value_nan.
  - unfold ts_getDeflectionEquation in Hc.
    apply option_map_some in Hc. destruct Hc as (res & Hrun & ->).
    split; [reflexivity | split; [apply curve_of_lengths|]].
    simpl. apply (ys_of_all (fun y => y = nan)); [intros y ->; reflexivity|].
    unfold ts_deflection_samples in Hrun. rewrite Hj in Hrun.
    apply deflection_loop_formula in Hrun. destruct Hrun as (new & -> & Hnew).
    rewrite app_nil_r. apply Forall_forall. intros [x y] Hin.
    apply in_rev in Hin. apply In_nth_error in Hin. destruct Hin as (k & Hk).
    rewrite (Hnew k x y Hk). cbn [snd].
    destruct (0 + k <=? 11)%nat; [apply calculatePoint1_nan | apply calculatePoint2_nan].
Qed.

Lemma X5_witness :
  j2 beam_without_j2 = nan /\
  exists c, ss_getDeflectionEquation 200 beam_without_j2 (ofZ 10) = Some c /\
            Forall (fun y => y = "NaN"%string) (ydata c).
Proof.
  pose (o := ss_getDeflectionEquation 200 beam_without_j2 (ofZ 10)).
  pose (c := match o with Some c => c | None => curve_of "" [] end).
  assert (Hj : j2 beam_without_j2 = nan) by reflexivity.
  assert (Hc : ss_getDeflectionEquation 200 beam_without_j2 (ofZ 10) = Some c)
    by (vm_compute; reflexivity).
  split; [exact Hj|]. exists c. split; [exact Hc|].
  exact (proj2 (proj2 (X5_deflection_is_NaN_without_j2 200 beam_without_j2 (ofZ 10) c Hj
                         (or_introl Hc)))).
Defined.

(** ** Degenerate spans of the simply supported beam *)

Lemma ss_loop_zero_span (value : Q -> Q) (span : Q) :
  span == 0 ->
  forall (fuel : nat) (x : Q) (acc : Samples Q),
    x == 0 -> ss_loop fuel value span x acc = None.
Proof.
  intros Hspan.
  induction fuel as [|fuel IH]; intros x acc Hx; simpl; [reflexivity|]. q_ops.
  destruct (Qleb_spec x span) as [_ | Hc]; [|exfalso; lra].
  apply IH. rewrite Hx, Hspan. reflexivity.
Qed.

Lemma ss_loop_zero_span_double (value : float -> float) :
  forall (fuel : nat) (acc : Samples float),
    ss_loop fuel value (ofZ 0) (ofZ 0) acc = None.
Proof.
  induction fuel as [|fuel IH]; intros acc; [reflexivity|].
  cbn [ss_loop].
  change (@leb float _ (ofZ 0) (ofZ 0)) with true. cbv iota.
  change (@add float _ (ofZ 0) (@div float _ (ofZ 0) (ofZ 100))) with (@ofZ float _ 0).
  apply IH.
Qed.

(** X6. A simply supported beam of span 0 makes none of the three
    generators return: the loop variable stays at 0, in exact and in double
    arithmetic, so the loop is still running whatever the number of
    iterations allowed.  A negative span makes them return at once, with
    empty [xdata] and [ydata]. *)
Theorem X6_simply_supported_degenerate_span :
  (forall (b : Beam Q) (w : Q) (fuel : nat),
     primarySpan b == 0 ->
     ss_getDeflectionEquation fuel b w = None /\
     ss_getBendingMomentEquation fuel b w = None /\
     ss_getShearForceEquation fuel b w = None) /\
  (forall (b : Beam float) (w : float) (fuel : nat),
     primarySpan b = ofZ 0 ->
     ss_getDeflectionEquation fuel b w = None /\
     ss_getBendingMomentEquation fuel b w = None /\
     ss_getShearForceEquation fuel b w = None) /\
  (forall (b : Beam Q) (w : Q) (fuel : nat),
     primarySpan b < 0 ->
     let empty kind := Some {| analys := kind; xdata := []; ydata := [] |} in
     ss_getDeflectionEquation (S fuel) b w = empty "deflection"%string /\
     ss_getBendingMomentEquation (S fuel) b w = empty "bendingmoment"%string /\
     ss_getShearForceEquation (S fuel) b w = empty "shearforce"%string).
Proof.
  split; [|split].
  - intros b w fuel Hb.
    unfold ss_getDeflectionEquation, ss_getBendingMomentEquation, ss_getShearForceEquation.
    rewrite !(ss_loop_zero_span _ _ Hb); repeat split; reflexivity.
  - intros b w fuel Hb.
    unfold ss_getDeflectionEquation, ss_getBendingMomentEquation, ss_getShearForceEquation.
    rewrite Hb, !ss_loop_zero_span_double. repeat split; reflexivity.
  - intros b w fuel Hb empty.
    unfold ss_getDeflectionEquation, ss_getBendingMomentEquation, ss_getShearForceEquation.
    cbn [ss_loop]. q_ops.
    destruct (Qleb_spec 0 (primarySpan b)) as [Hc | _]; [exfalso; lra|].
    repeat split; reflexivity.
Qed.

Lemma X6_witness :
  let b : Beam Q := beam_of 0 0 in
  let d : Beam float := beam_of 0 0 in
  primarySpan b == 0 /\ primarySpan d = ofZ 0 /\
  ss_getBendingMomentEquation 1000 b 10 = None /\
  ss_getBendingMomentEquation 1000 d (ofZ 10) = None.
Proof.
  intros b d.
  assert (Hb : primarySpan b == 0) by reflexivity.
  assert (Hd : primarySpan d = ofZ 0) by reflexivity.
  split; [exact Hb | split; [exact Hd | split]].
  - exact (proj1 (proj2 (proj1 X6_simply_supported_degenerate_span b 10 1000%nat Hb))).
  - exact (proj1 (proj2 (proj1 (proj2 X6_simply_supported_degenerate_span)
                           d (ofZ 10) 1000%nat Hd))).
Defined.

(** ** Simply supported beam: deflection and extreme values *)

Lemma ss_deflection_value_exact (w l Ei j x : Q) :
  ~ Ei == 0 ->
  ss_deflection_value w l Ei j x
  == - (w * x * (l ^ 3 - 2 * l * x ^ 2 + x ^ 3)) * j * (10 ^ 12) / (24 * Ei).
Proof.
  intros HEi. unfold ss_deflection_value, pow2, pow3. q_ops.
  change (inject_Z 24) with 24. change (inject_Z 1000) with 1000.
  change (inject_Z 2) with 2. field. try split; try exact HEi; try lra.
Qed.

Lemma ss_bending_value_bounds (w l x : Q) :
  0 <= w -> 0 <= x <= l ->
  - (w * l ^ 2 / 8) <= ss_bending_value w l x <= 0.
Proof.
  intros Hw Hx. rewrite ss_bending_value_exact.
  assert (Hsq : 0 <= (l / 2 - x) * (l / 2 - x)) by apply Qsquare_nonneg.
  assert (Hpr : 0 <= x * (l - x)) by nra.
  assert (Hid : w * l ^ 2 / 8 - w * x / 2 * (l - x)
                == w / 2 * ((l / 2 - x) * (l / 2 - x))) by field.
  assert (Hid' : w * x / 2 * (l - x) == w / 2 * (x * (l - x))) by field.
  assert (Hw2 : 0 <= w / 2).
  { unfold Qdiv. change (/ 2) with (1 # 2). lra. }
  set (h := w / 2) in *.
  assert (0 <= h * ((l / 2 - x) * (l / 2 - x))) by nra.
  assert (0 <= h * (x * (l - x))) by nra.
  split; lra.
Qed.

Lemma ss_shear_value_bounds (w l x : Q) :
  0 <= w -> 0 <= x <= l ->
  - (w * l / 2) <= ss_shear_value w l x <= w * l / 2.
Proof.
  intros Hw Hx. rewrite ss_shear_value_exact.
  assert (Hid : w * l / 2 == w * (l / 2)) by field.
  rewrite Hid. set (h := l / 2) in *.
  assert (Hh : l == 2 * h) by (unfold h; field).
  split; nra.
Qed.

Section SimplySupportedCurves.

Context {num : Type} `{JSNumber num}.

Local Open Scope js_scope.

(** X7. In every arithmetic, the simply supported deflection generator
    returns exactly when the loop test [x <= l] fails at one of the
    positions 0, [0 + l/100], [(0 + l/100) + l/100], ... within the
    iterations allowed, and then its samples are the positions before that
    one, in this order, each paired with the expression of the loop body
    evaluated at it.  Read in exact arithmetic with [EI <> 0], that
    expression is [v(x) = -w*x*(l^3 - 2*l*x^2 + x^3)*j2*10^12/(24*EI)]; it
    is zero at both ends and symmetric about midspan, where it is
    [-(5*w*l^4/(384*EI))*j2*10^12]. *)
Theorem X7_simply_supported_deflection (fuel : nat) (b : Beam num) (w : num)
    (c : Curve) :
  let l := primarySpan b in
  let Ei := EI (properties (material b)) in
  let j := j2 b in
  let v := fun x : num =>
    (- ((w * x) / (ofZ 24 * Ei / pow3 (ofZ 1000))))
    * (pow3 l - ofZ 2 * l * pow2 x + pow3 x) * j * ofZ 1000 in
  (ss_getDeflectionEquation fuel b w = Some c <->
   exists n, (n < fuel)%nat /\ ss_stops_after l n /\
             c = curve_of "deflection" (rev (ss_samples v l n))) /\
  (forall w l Ei j : Q,
     ~ Ei == 0 ->
     let v := ss_deflection_value w l Ei j in
     (forall x, v x == - (w * x * (l ^ 3 - 2 * l * x ^ 2 + x ^ 3)) * j * (10 ^ 12)
                       / (24 * Ei)) /\
     v 0 == 0 /\ v l == 0 /\
     (forall x, v (l - x) == v x) /\
     v (l / 2) == - (5 * w * l ^ 4 / (384 * Ei)) * j * (10 ^ 12))%Q.
Proof.
  intros l Ei j v. split.
  - apply (ss_generator_samples "deflection" v l fuel c).
  - intros qw ql qEi qj HEi qv. unfold qv.
    split; [intros x; now apply ss_deflection_value_exact|].
    rewrite !ss_deflection_value_exact by exact HEi.
    split; [field; exact HEi | split; [field; exact HEi | split]].
    + intros x. rewrite !ss_deflection_value_exact by exact HEi. field. exact HEi.
    + field. exact HEi.
Qed.

(** X8. In every arithmetic, the simply supported bending-moment and
    shear-force generators return exactly when the loop test [x <= l] fails
    at one of the positions 0, [0 + l/100], [(0 + l/100) + l/100], ...
    within the iterations allowed, and then their samples are the positions
    before that one, each paired with [(w*x/2)*(l - x)*(-1)], respectively
    [w*(l/2 - x)], evaluated at it.  Read in exact arithmetic with
    [w >= 0], at every position [0 <= x <= l] the moment lies between
    [-w*l^2/8] and 0 and the shear between [-w*l/2] and [w*l/2]; the moment
    is [-w*l^2/8] at midspan, the shear [w*l/2] at 0 and [-w*l/2] at [l]. *)
Theorem X8_simply_supported_extreme_values (fuel : nat) (b : Beam num) (w : num)
    (c : Curve) :
  let l := primarySpan b in
  let M := fun x : num => (w * x / ofZ 2) * (l - x) * (- ofZ 1) in
  let V := fun x : num => w * (l / ofZ 2 - x) in
  (ss_getBendingMomentEquation fuel b w = Some c <->
   exists n, (n < fuel)%nat /\ ss_stops_after l n /\
             c = curve_of "bendingmoment" (rev (ss_samples M l n))) /\
  (ss_getShearForceEquation fuel b w = Some c <->
   exists n, (n < fuel)%nat /\ ss_stops_after l n /\
             c = curve_of "shearforce" (rev (ss_samples V l n))) /\
  (forall w l : Q,
     0 <= w ->
     (forall x, 0 <= x <= l ->
        - (w * l ^ 2 / 8) <= ss_bending_value w l x <= 0 /\
        - (w * l / 2) <= ss_shear_value w l x <= w * l / 2) /\
     ss_bending_value w l (l / 2) == - (w * l ^ 2 / 8) /\
     ss_shear_value w l 0 == w * l / 2 /\
     ss_shear_value w l l == - (w * l / 2))%Q.
Proof.
  intros l M V. split; [|split].
  - apply (ss_generator_samples "bendingmoment" M l fuel c).
  - apply (ss_generator_samples "shearforce" V l fuel c).
  - intros qw ql Hw. split; [|split; [|split]].
    + intros x Hx. split; [now apply ss_bending_value_bounds | now apply ss_shear_value_bounds].
    + rewrite ss_bending_value_exact. field.
    + rewrite ss_shear_value_exact. field.
    + rewrite ss_shear_value_exact. field.
Qed.

End SimplySupportedCurves.

(** On the doubles, for the span 4 and the load 10: the loop test fails at
    the position of index 100, and the deflection curve has 100 samples. *)
Lemma X7_witness :
  let b : Beam float := beam_of 4 0 in
  let w : float := ofZ 10 in
  let o := ss_getDeflectionEquation 200 b w in
  let c := match o with Some c => c | None => curve_of "" [] end in
  o = Some c /\
  exists n,
    ss_stops_after (primarySpan b) n /\
    c = curve_of "deflection"
          (rev (ss_samples (ss_deflection_value w (primarySpan b)
                              (EI (properties (material b))) (j2 b))
                           (primarySpan b) n)) /\
    List.length (xdata c) = 100%nat.
Proof.
  intros b w o c.
  assert (H1 : o = Some c) by (vm_compute; reflexivity).
  split; [exact H1|].
  destruct (proj1 (proj1 (X7_simply_supported_deflection 200 b w c)) H1)
    as (n & _ & Hstop & Hc).
  exists n. split; [exact Hstop | split; [exact Hc|]].
  vm_compute. reflexivity.
Defined.

Lemma X8_witness :
  let b : Beam float := beam_of 4 0 in
  let w : float := ofZ 10 in
  let o := ss_getBendingMomentEquation 200 b w in
  let c := match o with Some c => c | None => curve_of "" [] end in
  o = Some c /\
  exists n,
    ss_stops_after (primarySpan b) n /\
    c = curve_of "bendingmoment"
          (rev (ss_samples (ss_bending_value w (primarySpan b)) (primarySpan b) n)) /\
    (last (xdata c) "", last (ydata c) "") = ("3.96", "-0.79")%string.
Proof.
  intros b w o c.
  assert (H1 : o = Some c) by (vm_compute; reflexivity).
  split; [exact H1|].
  destruct (proj1 (proj1 (X8_simply_supported_extreme_values 200 b w c)) H1)
    as (n & _ & Hstop & Hc).
  exists n. split; [exact Hstop | split; [exact Hc|]].
  vm_compute. reflexivity.
Defined.

(** ** The reactions of the two-span beam, further *)

Lemma support_moment_scaled (w l1 l2 : Q) :
  0 < l1 -> 0 < l2 ->
  support_moment w l1 l2 * (8 * (l1 + l2)) == - (w * (l1 ^ 3 + l2 ^ 3)).
Proof.
  intros H1 H2. unfold support_moment, pow3. q_ops.
  change (inject_Z 8) with 8. field. lra.
Qed.

Lemma reaction1_scaled (w l1 l2 : Q) :
  0 < l1 -> 0 < l2 ->
  reaction1 w l1 l2 * l1 == support_moment w l1 l2 + w * l1 ^ 2 / 2.
Proof.
  intros H1 H2. unfold reaction1. q_ops. change (inject_Z 2) with 2.
  field. lra.
Qed.

Lemma reaction3_scaled (w l1 l2 : Q) :
  0 < l1 -> 0 < l2 ->
  reaction3 w l1 l2 * l2 == support_moment w l1 l2 + w * l2 ^ 2 / 2.
Proof.
  intros H1 H2. unfold reaction3. q_ops. change (inject_Z 2) with 2.
  field. lra.
Qed.

Lemma reaction2_sum (w l1 l2 : Q) :
  reaction2 w l1 l2 == w * l1 + w * l2 - reaction1 w l1 l2 - reaction3 w l1 l2.
Proof. unfold reaction2. q_ops. reflexivity. Qed.

Lemma support_moment_mirror (w l1 l2 : Q) :
  support_moment w l2 l1 == support_moment w l1 l2.
Proof.
  unfold support_moment, pow3. q_ops.
  setoid_replace (w * (l1 * l1 * l1) + w * (l2 * l2 * l2))
    with (w * (l2 * l2 * l2) + w * (l1 * l1 * l1)) by ring.
  setoid_replace (l2 + l1) with (l1 + l2) by ring.
  reflexivity.
Qed.

(** X9. For spans [l1 > 0], [l2 > 0], in exact arithmetic the reactions the
    two-span generators compute balance the moments about the left end,
    [r2*l1 + r3*(l1+l2) = w*(l1+l2)^2/2]; the moment at the middle support
    is [m1] from either side; swapping the spans swaps [r1] and [r3] and
    keeps [r2]; equal spans give [r1 = r3 = 3*w*l1/8] and [r2 = 5*w*l1/4];
    and for [w >= 0] the support moment is not positive and the middle
    support carries at least half the load. *)
Theorem X9_reactions_equilibrium_and_symmetry (w l1 l2 : Q) :
  0 < l1 -> 0 < l2 ->
  let m1 := support_moment w l1 l2 in
  let r1 := reaction1 w l1 l2 in
  let r2 := reaction2 w l1 l2 in
  let r3 := reaction3 w l1 l2 in
  r2 * l1 + r3 * (l1 + l2) == w * (l1 + l2) ^ 2 / 2 /\
  r1 * l1 - w * l1 ^ 2 / 2 == m1 /\
  r3 * l2 - w * l2 ^ 2 / 2 == m1 /\
  (reaction1 w l2 l1 == r3 /\ reaction3 w l2 l1 == r1 /\ reaction2 w l2 l1 == r2) /\
  (l1 == l2 -> r1 == 3 * w * l1 / 8 /\ r3 == 3 * w * l1 / 8 /\ r2 == 5 * w * l1 / 4) /\
  (0 <= w -> m1 <= 0 /\ w * (l1 + l2) / 2 <= r2).
Proof.
  intros H1 H2 m1 r1 r2 r3.
  pose proof (support_moment_scaled w l1 l2 H1 H2) as Hm.
  pose proof (reaction1_scaled w l1 l2 H1 H2) as Hr1.
  pose proof (reaction3_scaled w l1 l2 H1 H2) as Hr3.
  pose proof (reaction2_sum w l1 l2) as Hr2.
  fold m1 in Hm, Hr1, Hr3. fold r1 in Hr1, Hr2. fold r3 in Hr3, Hr2. fold r2 in Hr2.
  assert (Hmir1 : reaction1 w l2 l1 == r3).
  { unfold r3, reaction1, reaction3. q_ops. now rewrite support_moment_mirror. }
  assert (Hmir3 : reaction3 w l2 l1 == r1).
  { unfold r1, reaction1, reaction3. q_ops. now rewrite support_moment_mirror. }
  split; [|split; [|split; [|split; [|split]]]].
  - rewrite Hr2.
    setoid_replace ((w * l1 + w * l2 - r1 - r3) * l1 + r3 * (l1 + l2))
      with (w * l1 * l1 + w * l1 * l2 - r1 * l1 + r3 * l2) by ring.
    rewrite Hr1, Hr3. field.
  - rewrite Hr1. field.
  - rewrite Hr3. field.
  - split; [exact Hmir1 | split; [exact Hmir3|]].
    rewrite reaction2_sum, Hmir1, Hmir3, Hr2. ring.
  - intros Heq.
    assert (E1 : r1 == 3 * w * l1 / 8).
    { unfold r1, reaction1, support_moment, pow3. q_ops. rewrite <- Heq.
      change (inject_Z 8) with 8. change (inject_Z 2) with 2. field. lra. }
    assert (E3 : r3 == 3 * w * l1 / 8).
    { unfold r3, reaction3, support_moment, pow3. q_ops. rewrite <- Heq.
      change (inject_Z 8) with 8. change (inject_Z 2) with 2. field. lra. }
    split; [exact E1 | split; [exact E3|]].
    rewrite Hr2, E1, E3, <- Heq. field.
  - intros Hw.
    assert (Hc1 : 0 <= l1 ^ 3) by (assert (0 <= l1 * l1) by nra; nra).
    assert (Hc2 : 0 <= l2 ^ 3) by (assert (0 <= l2 * l2) by nra; nra).
    assert (Hm1 : m1 <= 0).
    { destruct (Qlt_le_dec 0 m1) as [Hpos | Hle]; [|exact Hle].
      exfalso. assert (0 < m1 * (8 * (l1 + l2))) by nra. nra. }
    split; [exact Hm1|].
    assert (Hs : (r1 + r3 - w * (l1 + l2) / 2) * (l1 * l2) == m1 * (l1 + l2)).
    { setoid_replace ((r1 + r3 - w * (l1 + l2) / 2) * (l1 * l2))
        with (r1 * l1 * l2 + r3 * l2 * l1 - w * (l1 + l2) * (l1 * l2) / 2) by field.
      rewrite Hr1, Hr3. field. }
    assert (Hp : 0 < l1 * l2) by nra.
    assert (Hq : m1 * (l1 + l2) <= 0) by nra.
    assert (Hle : r1 + r3 - w * (l1 + l2) / 2 <= 0).
    { destruct (Qlt_le_dec 0 (r1 + r3 - w * (l1 + l2) / 2)) as [Hpos | Hle]; [|exact Hle].
      exfalso. set (d := r1 + r3 - w * (l1 + l2) / 2) in *.
      assert (0 < d * (l1 * l2)) by nra. lra. }
    rewrite Hr2. clear - Hle. unfold Qdiv in *. change (/ 2) with (1 # 2) in *. lra.
Qed.

Lemma X9_witness :
  0 < 5 /\ 0 < 7 /\
  reaction2 3 5 7 * 5 + reaction3 3 5 7 * (5 + 7) == 3 * (5 + 7) ^ 2 / 2.
Proof.
  assert (H1 : 0 < 5) by reflexivity.
  assert (H2 : 0 < 7) by reflexivity.
  split; [exact H1 | split; [exact H2|]].
  exact (proj1 (X9_reactions_equilibrium_and_symmetry 3 5 7 H1 H2)).
Defined.

(** ** The two-span deflection formulas *)





(** ** The two-span shear values *)

Section TwoSpanShearValues.

Context {num : Type} `{JSNumber num}.

Local Open Scope js_scope.

(** X13. In every arithmetic, the value the two-span shear generator pairs
    with a sampled position [x] is: [r1] when [x === 0]; else
    [(r1 + r2) - w*l] when [x === l]; else, when [x] is not [=== l1],
    [r1 - w*x] if [x < l1] and [(r1 + r2) - w*x] if not; and when
    [x === l1], the left limit [r1 - w*l1], or the right limit
    [(r1 + r2) - w*l1], or the value of the rule for the other positions.
    The first sample lies at 0 when [0 <= l].  Read in exact arithmetic
    with [l1 > 0] and [l2 > 0], the value at the right end,
    [(r1 + r2) - w*l], is [-r3], and the two limits at the support differ by
    [r2]. *)
Theorem X13_two_span_shear_values (fuel : nat) (b : Beam num) (w : num)
    (res : Samples num) :
  ts_shear_samples fuel b w = Some res ->
  let l1 := primarySpan b in
  let l2 := secondarySpan b in
  let l := l1 + l2 in
  let r1 := reaction1 w l1 l2 in
  let r2 := reaction2 w l1 l2 in
  let by_side (x : num) := if x <? l1 then r1 - w * x else (r1 + r2) - w * x in
  (forall x y, In (x, y) res ->
     if x === ofZ 0 then y = r1
     else if x === l then y = (r1 + r2) - w * l
     else if x === l1
          then y = r1 - w * l1 \/ y = (r1 + r2) - w * l1 \/ y = by_side x
          else y = by_side x) /\
  ((ofZ 0 <=? l) = true -> exists y rest, emitted res = (ofZ 0, y) :: rest) /\
  ts_getShearForceEquation fuel b w = Some (curve_of "shearforce" res) /\
  (forall w l1 l2 : Q,
     0 < l1 -> 0 < l2 ->
     let r1 := reaction1 w l1 l2 in
     let r2 := reaction2 w l1 l2 in
     let r3 := reaction3 w l1 l2 in
     (r1 + r2) - w * (l1 + l2) == - r3 /\
     ((r1 + r2) - w * l1) - (r1 - w * l1) == r2)%Q.
Proof.
  intros Hrun l1 l2 l r1 r2 by_side.
  split; [|split; [|split]].
  - intros x y Hin.
    assert (Hval : Forall (fun p => exists mn,
                     snd p = calculate (fst p) mn (fst p) r1 r2 w l l1) res).
    { eapply shear_loop_values; [exact Hrun | constructor]. }
    rewrite Forall_forall in Hval. destruct (Hval (x, y) Hin) as (mn & Hy).
    cbn [fst snd] in Hy. unfold calculate in Hy. unfold by_side.
    destruct (x === ofZ 0); [exact Hy|].
    destruct (x === l); [exact Hy|].
    destruct (x === l1); cbn [andb] in Hy; [|exact Hy].
    destruct (mn - l1 <? ofZ 0); [now left|].
    destruct (ofZ 0 <? x - l1); [right; now left|].
    right. right. exact Hy.
  - intros Hg. apply shear_loop_first in Hrun; [|exact Hg].
    destruct Hrun as (rest & Hrest). eexists. exists rest. exact Hrest.
  - unfold ts_getShearForceEquation. now rewrite Hrun.
  - intros qw q1 q2 H1 H2 qr1 qr2 qr3.
    destruct (reactions_exact qw q1 q2 H1 H2) as (_ & Hr1 & Hr3 & Hr2 & Hsum).
    cbv zeta in Hr1, Hr3, Hr2, Hsum.
    fold qr1 in Hr1. fold qr2 in Hr2. fold qr3 in Hr3.
    rewrite <- Hr1, <- Hr3 in Hr2. split; [rewrite Hr2|]; ring.
Qed.

End TwoSpanShearValues.

(** On the doubles, for spans 9 and 21 and load 1: the first ordinate is
    [r1], printed ["-0.13"], and the last one is printed ["-8.52"]. *)
Lemma X13_witness :
  let b : Beam float := beam_of 9 21 in
  let w : float := ofZ 1 in
  let o := ts_shear_samples 400 b w in
  let res := match o with Some r => r | None => [] end in
  o = Some res /\
  ts_getShearForceEquation 400 b w = Some (curve_of "shearforce" res) /\
  (nth 0 (ydata (curve_of "shearforce" res)) "",
   last (ydata (curve_of "shearforce" res)) "") = ("-0.13", "-8.52")%string.
Proof.
  intros b w o res.
  assert (H1 : o = Some res) by (vm_compute; reflexivity).
  split; [exact H1|].
  split; [|vm_compute; reflexivity].
  exact (proj1 (proj2 (proj2 (X13_two_span_shear_values 400 b w res H1)))).
Defined.
(** ** Zero-shear points *)

(** X15. Read in exact arithmetic, for spans [l1 > 0], [l2 > 0] and a load
    [w <> 0]: the two positions the deflection and bending-moment loops snap
    to, [a = r1/w] and [b = l - r3/w], depend on the spans only,
    [a = (3*l1^2 + l1*l2 - l2^2)/(8*l1)] and
    [b = (l1^2 + 7*l1*l2 + 5*l2^2)/(8*l2)]; [a] lies more than a nominal
    step left of the middle support and [b] right of it; the shear
    expressions of [calculate] vanish there, [r1 - w*a = 0] and
    [(r1 + r2) - w*b = 0]; and for [w > 0] the two moment expressions
    rounded by [calculateRoundedValue] are greatest there.  On the doubles
    this need not hold: for spans 1 and 1 and the load 5e-324 the reaction
    [r1] evaluates to 0, so that [r1/w] is 0 and not 3/8. *)
Theorem X15_zero_shear_points (w l1 l2 : Q) :
  ~ w == 0 -> 0 < l1 -> 0 < l2 ->
  let l := l1 + l2 in
  let r1 := reaction1 w l1 l2 in
  let r2 := reaction2 w l1 l2 in
  let r3 := reaction3 w l1 l2 in
  let a := r1 / w in
  let b := l - r3 / w in
  a == (3 * l1 ^ 2 + l1 * l2 - l2 ^ 2) / (8 * l1) /\
  b == (l1 ^ 2 + 7 * l1 * l2 + 5 * l2 ^ 2) / (8 * l2) /\
  a < l1 - l / 100 /\ l1 < b /\
  r1 - w * a == 0 /\
  (r1 + r2) - w * b == 0 /\
  (0 < w -> forall x, r1 * x - w * x ^ 2 / 2 <= r1 * a - w * a ^ 2 / 2) /\
  (0 < w -> forall x, r1 * x + r2 * (x - l1) - w * x ^ 2 / 2
                      <= r1 * b + r2 * (b - l1) - w * b ^ 2 / 2) /\
  (@reaction1 float _ min_value (ofZ 1) (ofZ 1) / min_value)%js = ofZ 0.
Proof.
  intros Hw H1 H2 l r1 r2 r3 a b.
  pose proof (zero_shear_1_far w l1 l2 Hw H1 H2) as Ha. fold r1 a l in Ha.
  pose proof (zero_shear_2_right w l1 l2 Hw H1 H2) as Hb. fold r3 l b in Hb.
  destruct (reactions_exact w l1 l2 H1 H2) as (_ & Hr1 & Hr3 & Hr2 & Hsum).
  cbv zeta in Hr1, Hr3, Hr2, Hsum. fold r1 in Hr1. fold r2 in Hr2. fold r3 in Hr3.
  assert (Hsum' : r1 + r2 + r3 == w * l).
  { rewrite Hr1, Hr2, Hr3. exact Hsum. }
  assert (Hwa : w * a == r1) by (unfold a; field; exact Hw).
  assert (Hwb : w * b == r1 + r2).
  { unfold b. setoid_replace (w * (l - r3 / w)) with (w * l - r3) by (field; exact Hw).
    rewrite <- Hsum'. ring. }
  split; [|split; [|split; [exact Ha | split; [exact Hb |
    split; [|split; [|split; [|split]]]]]]].
  - unfold a. rewrite Hr1. field. repeat split; first [exact Hw | lra].
  - unfold b, l. rewrite Hr3. field. repeat split; first [exact Hw | lra].
  - rewrite Hwa. ring.
  - rewrite Hwb. ring.
  - intros Hpos x.
    assert (Hid : r1 * a - w * a ^ 2 / 2 - (r1 * x - w * x ^ 2 / 2)
                  == w / 2 * ((x - a) * (x - a))).
    { rewrite <- Hwa. field. }
    pose proof (Qsquare_nonneg (x - a)) as Hsq.
    assert (Hh : 0 < w / 2) by (unfold Qdiv; change (/ 2) with (1 # 2); lra).
    set (h := w / 2) in *. assert (0 <= h * ((x - a) * (x - a))) by nra. lra.
  - intros Hpos x.
    assert (Hid : r1 * b + r2 * (b - l1) - w * b ^ 2 / 2
                  - (r1 * x + r2 * (x - l1) - w * x ^ 2 / 2)
                  == w / 2 * ((x - b) * (x - b))).
    { setoid_replace (r1 * b + r2 * (b - l1) - w * b ^ 2 / 2
                      - (r1 * x + r2 * (x - l1) - w * x ^ 2 / 2))
        with ((r1 + r2) * (b - x) - w * b ^ 2 / 2 + w * x ^ 2 / 2) by field.
      rewrite <- Hwb. field. }
    pose proof (Qsquare_nonneg (x - b)) as Hsq.
    assert (Hh : 0 < w / 2) by (unfold Qdiv; change (/ 2) with (1 # 2); lra).
    set (h := w / 2) in *. assert (0 <= h * ((x - b) * (x - b))) by nra. lra.
  - vm_compute. reflexivity.
Qed.

Lemma X15_witness :
  ~ 3 == 0 /\ 0 < 5 /\ 0 < 7 /\
  reaction1 3 5 7 / 3 == (3 * 5 ^ 2 + 5 * 7 - 7 ^ 2) / (8 * 5) /\
  reaction1 3 5 7 / 3 < 5 - (5 + 7) / 100.
Proof.
  assert (H1 : ~ 3 == 0) by discriminate.
  assert (H2 : 0 < 5) by reflexivity.
  assert (H3 : 0 < 7) by reflexivity.
  split; [exact H1 | split; [exact H2 | split; [exact H3|]]].
  destruct (X15_zero_shear_points 3 5 7 H1 H2 H3) as (Ha & _ & Hfar & _).
  split; [exact Ha | exact Hfar].
Defined.
(** ** Loop guards, for every number type *)

Section GenericGuard.

Context {num : Type} `{JSNumber num}.

Local Open Scope js_scope.

(** A loop that stops at once adds nothing. *)
Lemma guarded_stop (l x0 : num) (acc : Samples num) : guarded l x0 acc acc.
Proof. exists []. split; [reflexivity | split; [constructor | now left]]. Qed.

(** The sample on which the loop breaks. *)
Lemma guarded_last (l x0 y : num) (acc : Samples num) :
  (x0 <=? l) = true -> guarded l x0 acc ((x0, y) :: acc).
Proof.
  intros Hx. exists [(x0, y)].
  split; [reflexivity | split; [repeat constructor; exact Hx|]].
  right. now exists [], y.
Qed.

(** One more iteration. *)
Lemma guarded_step (l x0 x1 y : num) (acc res : Samples num) :
  (x0 <=? l) = true -> guarded l x1 ((x0, y) :: acc) res -> guarded l x0 acc res.
Proof.
  intros Hx (new & -> & Hnew & Hfirst).
  exists (new ++ [(x0, y)]). split; [now rewrite <- app_assoc | split].
  - apply Forall_app. split; [exact Hnew | repeat constructor; exact Hx].
  - right. now exists new, y.
Qed.

(** Each of the four loops is guarded. *)
Lemma ss_loop_guarded (value : num -> num) (span : num) :
  forall (fuel : nat) (x : num) (acc res : Samples num),
    ss_loop fuel value span x acc = Some res -> guarded span x acc res.
Proof.
  induction fuel as [|fuel IH]; simpl; intros x acc res Hres; [discriminate|].
  destruct (x <=? span) eqn:Hx.
  - apply IH in Hres. now apply guarded_step in Hres.
  - injection Hres as <-. apply guarded_stop.
Qed.

Lemma deflection_loop_guarded (Ei j l l1 r1 r2 r3 w : num) :
  forall (fuel i : nat) (s : Vars num) (acc res : Samples num),
    deflection_loop fuel Ei j l l1 r1 r2 r3 w i s acc = Some res ->
    guarded l (var_m s) acc res.
Proof.
  induction fuel as [|fuel IH]; simpl; intros i s acc res Hres; [discriminate|].
  destruct (var_m s <=? l) eqn:Hx.
  - destruct (var_m s === l).
    + injection Hres as <-. now apply guarded_last.
    + apply IH in Hres. now apply guarded_step in Hres.
  - injection Hres as <-. apply guarded_stop.
Qed.

Lemma bending_loop_guarded (l l1 r1 r2 r3 w : num) :
  forall (fuel : nat) (s : Vars num) (acc res : Samples num),
    bending_loop fuel l l1 r1 r2 r3 w s acc = Some res ->
    guarded l (var_m s) acc res.
Proof.
  induction fuel as [|fuel IH]; simpl; intros s acc res Hres; [discriminate|].
  destruct (var_m s <=? l) eqn:Hx.
  - destruct (var_m s === l).
    + injection Hres as <-. now apply guarded_last.
    + apply IH in Hres. now apply guarded_step in Hres.
  - injection Hres as <-. apply guarded_stop.
Qed.

Lemma shear_loop_guarded (l l1 r1 r2 w : num) :
  forall (fuel : nat) (s : Vars num) (acc res : Samples num),
    shear_loop fuel l l1 r1 r2 w s acc = Some res ->
    guarded l (var_m s) acc res.
Proof.
  induction fuel as [|fuel IH]; simpl; intros s acc res Hres; [discriminate|].
  destruct (var_m s <=? l) eqn:Hx.
  - destruct (var_m s === l).
    + injection Hres as <-. now apply guarded_last.
    + apply IH in Hres. now apply guarded_step in Hres.
  - injection Hres as <-. apply guarded_stop.
Qed.

(** The curve built from the samples of a guarded loop started at 0. *)
Lemma guarded_curve (kind : string) (l : num) (o : option (Samples num)) (c : Curve) :
  (forall res, o = Some res -> guarded l (ofZ 0) [] res) ->
  option_map (curve_of kind) o = Some c ->
  exists res,
    o = Some res /\ c = curve_of kind res /\
    Forall (fun p => (fst p <=? l) = true) res /\
    (xdata c = [] \/
     exists y, nth_error (emitted res) 0 = Some (ofZ 0, y) /\
               nth_error (xdata c) 0 = Some (show (toFixed2 (ofZ 0)))).
Proof.
  intros Hg Hc. apply option_map_some in Hc. destruct Hc as (res & -> & ->).
  exists res. split; [reflexivity | split; [reflexivity|]].
  destruct (Hg res eq_refl) as (new & Hres & Hnew & Hfirst).
  rewrite app_nil_r in Hres. subst new.
  split; [exact Hnew|].
  destruct Hfirst as [-> | (front & y & ->)]; [now left|].
  right. exists y. cbn [xdata curve_of]. unfold emitted, xs_of.
  rewrite map_app, !rev_app_distr. split; reflexivity.
Qed.

(** X20. For every number type (doubles included): the samples of a curve
    returned by any of the six generators all passed the loop test
    [x <= l], with [l] the primary span for the simply supported analyzer
    and the sum of the spans for the two-span analyzer; and unless the curve
    is empty its first sample was taken at position 0, so that its first
    abscissa is [(0).toFixed(2)]. *)
Theorem X20_samples_start_at_zero_and_pass_the_guard (fuel : nat) (b : Beam num)
    (w : num) (c : Curve) :
  forall gen l,
    In (gen, l)
       [ (ss_getDeflectionEquation fuel b w, primarySpan b);
         (ss_getBendingMomentEquation fuel b w, primarySpan b);
         (ss_getShearForceEquation fuel b w, primarySpan b);
         (ts_getDeflectionEquation fuel b w, primarySpan b + secondarySpan b);
         (ts_getBendingMomentEquation fuel b w, primarySpan b + secondarySpan b);
         (ts_getShearForceEquation fuel b w, primarySpan b + secondarySpan b) ] ->
    gen = Some c ->
    exists res,
      xdata c = xs_of res /\ ydata c = ys_of res /\
      Forall (fun p => (fst p <=? l) = true) res /\
      (xdata c = [] \/
       exists y, nth_error (emitted res) 0 = Some (ofZ 0, y) /\
                 nth_error (xdata c) 0 = Some (show (toFixed2 (ofZ 0)))).
Proof.
  intros gen l Hin Hc.
  assert (Hgen : forall kind o,
            (forall res, o = Some res -> guarded l (ofZ 0) [] res) ->
            option_map (curve_of kind) o = Some c ->
            exists res,
              xdata c = xs_of res /\ ydata c = ys_of res /\
              Forall (fun p => (fst p <=? l) = true) res /\
              (xdata c = [] \/
               exists y, nth_error (emitted res) 0 = Some (ofZ 0, y) /\
                         nth_error (xdata c) 0 = Some (show (toFixed2 (ofZ 0))))).
  { intros kind o Hg Ho.
    destruct (guarded_curve kind l o c Hg Ho) as (res & _ & -> & Hle & Hfirst).
    exists res. repeat split; assumption. }
  simpl in Hin.
  destruct Hin as [Hin | [Hin | [Hin | [Hin | [Hin | [Hin | []]]]]]];
    injection Hin as <- <-; revert Hc; apply Hgen; intros res Hres.
  - now apply ss_loop_guarded in Hres.
  - now apply ss_loop_guarded in Hres.
  - now apply ss_loop_guarded in Hres.
  - now apply deflection_loop_guarded in Hres.
  - now apply bending_loop_guarded in Hres.
  - now apply shear_loop_guarded in Hres.
Qed.

End GenericGuard.

Lemma X20_witness :
  let b : Beam float := beam_of 4 0 in
  let o := ss_getShearForceEquation 200 b (ofZ 10) in
  let c := match o with Some c => c | None => curve_of "" [] end in
  o = Some c /\
  exists res : Samples float,
    xdata c = xs_of res /\
    Forall (fun p => PrimFloat.leb (fst p) (primarySpan b) = true) res.
Proof.
  intros b o c.
  assert (Hc : o = Some c) by (vm_compute; reflexivity).
  split; [exact Hc|].
  destruct (X20_samples_start_at_zero_and_pass_the_guard 200 b (ofZ 10) c
              (ss_getShearForceEquation 200 b (ofZ 10)) (primarySpan b)
              (or_intror (or_intror (or_introl eq_refl))) Hc)
    as (res & Hx & _ & Hle & _).
  exists res. exact (conj Hx Hle).
Defined.
